(** * KRR 2.1.1: the Hangul romanization codec of [krr.py]

    A shallow embedding of [encode] and [decode] together with the three
    jamo tables, and the properties of the codec proved over it.

    Python values are modelled as follows.
    - A [str] is the list of its code points; a character is a code point
      (an integer), so that [ord] is the identity and a comparison between
      two one-character strings is the comparison of their code points.
    - A Python [int] is a [Z]; [//] and [%] are [Z.div] and [Z.modulo]
      (floor division, as in Python).
    - A [dict] is a [gmap]; a dict comprehension inserts its items in
      iteration order.
    - An operation that can raise returns a [pyres], the raised exception
      being one of [exn]. *)

From stdpp Require Import base list gmap sorting.
From Stdlib Require Import ZArith Lia.
From Stdlib Require Strings.Ascii Strings.String.
Import String.StringSyntax.
Delimit Scope string_scope with string.

Local Open Scope Z_scope.

(** ** Python values and exceptions *)

Abbreviation str := (list Z) (only parsing).

Inductive exn := IndexError | KeyError | ValueError.

Inductive pyres (A : Type) :=
  | Ok (a : A)
  | Raise (e : exn).

Arguments Ok {A} a.
Arguments Raise {A} e.

Definition bind {A B} (r : pyres A) (k : A -> pyres B) : pyres B :=
  match r with
  | Ok a => k a
  | Raise e => Raise e
  end.

Notation "x <- r ;; k" := (bind r (fun x => k))
  (at level 100, r at next level, right associativity,
   format "'[v' x  <-  r  ;;  '/' k ']'") : stdpp_scope.

(** A [for] loop whose body updates the loop state and may raise. *)
Fixpoint for_each {A S} (body : S -> A -> pyres S) (xs : list A) (s : S)
  : pyres S :=
  match xs with
  | [] => Ok s
  | x :: xs' => s' <- body s x ;; for_each body xs' s'
  end.

(** ** Built-in operations used by the module *)

(** [chr(i)]: raises [ValueError] outside [range(0x110000)]. *)
Definition chr (i : Z) : pyres Z :=
  if (0 <=? i) && (i <? 1114112) then Ok i else Raise ValueError.

Definition ord (c : Z) : Z := c.

(** [l[i]] on a list: negative indices count from the end, and an index
    outside [-len(l) .. len(l)-1] raises [IndexError]. *)
Definition getitem {A} (l : list A) (i : Z) : pyres A :=
  let n := Z.of_nat (length l) in
  let j := if i <? 0 then i + n else i in
  if (0 <=? j) && (j <? n) then
    match l !! Z.to_nat j with
    | Some x => Ok x
    | None => Raise IndexError
    end
  else Raise IndexError.

(** [enumerate(l)], counting from [start]. *)
Fixpoint enumerate_from {A} (start : Z) (l : list A) : list (Z * A) :=
  match l with
  | [] => []
  | x :: l' => (start, x) :: enumerate_from (start + 1) l'
  end.

Definition enumerate {A} (l : list A) : list (Z * A) := enumerate_from 0 l.

(** [{val: idx for idx, val in enumerate(l)}]: a later item overwrites an
    earlier one with the same key. *)
Definition index_map (l : list str) : gmap str Z :=
  foldl (fun m '(idx, val) => <[val := idx]> m) ∅ (enumerate l).

(** [k in d] and [d[k]] on a dict. *)
Definition dict_in (k : str) (d : gmap str Z) : bool :=
  match d !! k with
  | Some _ => true
  | None => false
  end.

Definition dict_get (d : gmap str Z) (k : str) : pyres Z :=
  match d !! k with
  | Some v => Ok v
  | None => Raise KeyError
  end.

(** [sep.join(blocks)]. *)
Fixpoint str_join (sep : str) (blocks : list str) : str :=
  match blocks with
  | [] => []
  | [b] => b
  | b :: bs => b ++ sep ++ str_join sep bs
  end.

(** [c in chars] for a character [c]. *)
Definition char_in (c : Z) (chars : str) : bool := existsb (Z.eqb c) chars.

(** [s.lstrip(chars)], [s.rstrip(chars)] and [s.strip(chars)]: every leading
    (trailing) character that belongs to [chars] is removed. *)
Fixpoint str_lstrip (chars : str) (s : str) : str :=
  match s with
  | [] => []
  | c :: s' => if char_in c chars then str_lstrip chars s' else s
  end.

Definition str_rstrip (chars : str) (s : str) : str :=
  reverse (str_lstrip chars (reverse s)).

Definition str_strip (chars : str) (s : str) : str :=
  str_rstrip chars (str_lstrip chars s).

(** [s.replace(old, new)] where [old] is the one-character string [old]. *)
Fixpoint str_replace (old : Z) (new : str) (s : str) : str :=
  match s with
  | [] => []
  | c :: s' =>
      (if c =? old then new else [c]) ++ str_replace old new s'
  end.

(** [s.split(sep)] where [sep] is the one-character string [sep]: the
    result always has one block more than [s] has separators. *)
Fixpoint str_split (sep : Z) (s : str) : list str :=
  match s with
  | [] => [[]]
  | c :: s' =>
      if c =? sep then [] :: str_split sep s'
      else match str_split sep s' with
           | b :: bs => (c :: b) :: bs
           | [] => [[c]]
           end
  end.

(** [s.startswith(v)]. *)
Fixpoint startswith (v s : str) : bool :=
  match v, s with
  | [], _ => true
  | _ :: _, [] => false
  | x :: v', c :: s' => (x =? c) && startswith v' s'
  end.

(** [v in s] for strings: [v] occurs in [s] as a contiguous substring. *)
Fixpoint str_contains (v s : str) : bool :=
  startswith v s ||
  match s with
  | [] => false
  | _ :: s' => str_contains v s'
  end.

(** The split of [s] at the first occurrence of [v], if there is one. *)
Fixpoint find_first (v s : str) : option (str * str) :=
  if startswith v s then Some ([], drop (length v) s)
  else match s with
       | [] => None
       | c :: s' =>
           match find_first v s' with
           | Some (p, q) => Some (c :: p, q)
           | None => None
           end
       end.

(** [s.partition(v)]: [(before, v, after)] at the first occurrence of [v],
    [(s, '', '')] when [v] does not occur, [ValueError] for an empty [v]. *)
Definition str_partition (s v : str) : pyres (str * str * str) :=
  match v with
  | [] => Raise ValueError
  | _ :: _ =>
      match find_first v s with
      | Some (p, q) => Ok (p, v, q)
      | None => Ok (s, [], [])
      end
  end.

(** [sorted(l, key=len, reverse=True)]: descending length; the sort is
    stable, so tokens of equal length keep the order they have in [l]. *)
Fixpoint insert_by_len (x : str) (l : list str) : list str :=
  match l with
  | [] => [x]
  | y :: l' =>
      if (length x <? length y)%nat then y :: insert_by_len x l'
      else x :: l
  end.

Definition sorted_len_reverse (l : list str) : list str :=
  foldr insert_by_len [] l.

(** ** Configuration and constants *)

(** The code points of an ASCII literal. *)
Fixpoint lit (s : String.string) : str :=
  match s with
  | String.EmptyString => []
  | String.String a s' => Z.of_nat (Ascii.nat_of_ascii a) :: lit s'
  end.

Arguments lit s%_string.

Definition SEP_CHAR : Z := 92.                  (* backslash *)
Definition SEPARATOR : str := [SEP_CHAR].

Definition a_uml : Z := 228.                    (* U+00E4 *)
Definition e_grave : Z := 232.                  (* U+00E8 *)
Definition o_uml : Z := 246.                    (* U+00F6 *)
Definition u_uml : Z := 252.                    (* U+00FC *)

(** 19 initial consonants (onset). *)
Definition INITIALS : list str :=
  [ lit "g"; lit "g`"; lit "n"; lit "d"; lit "d`"; lit "l"; lit "m";
    lit "b"; lit "b`"; lit "s"; lit "s`"; []; lit "j"; lit "j`";
    lit "ch"; lit "k"; lit "t"; lit "p"; lit "h" ].

(** 21 medial vowels (nucleus). *)
Definition MEDIALS : list str :=
  [ lit "a"; [a_uml]; lit "ya"; lit "y" ++ [a_uml]; lit "u"; [e_grave];
    lit "yu"; lit "y" ++ [e_grave]; lit "o"; lit "wa"; lit "w" ++ [a_uml];
    [o_uml]; lit "yo"; lit "oo"; [u_uml]; lit "w" ++ [e_grave]; lit "wi";
    lit "yoo"; lit "e~"; lit "e~i"; lit "i" ].

(** 28 final consonants (coda). *)
Definition FINALS : list str :=
  [ []; lit "g"; lit "g`"; lit "gs"; lit "n"; lit "nj"; lit "nh";
    lit "d"; lit "l"; lit "lg"; lit "lm"; lit "lb"; lit "ls"; lit "lt";
    lit "lp"; lit "lh"; lit "m"; lit "b"; lit "bs"; lit "s"; lit "s`";
    lit "ng~"; lit "j"; lit "ch"; lit "k"; lit "t"; lit "p"; lit "h" ].

(** Lookup tables for decoding. *)
Definition INITIAL_MAP : gmap str Z := index_map INITIALS.
Definition MEDIAL_MAP : gmap str Z := index_map MEDIALS.
Definition FINAL_MAP : gmap str Z := index_map FINALS.

(** The nucleus tokens, longest first. *)
Definition _SORTED_MEDIALS : list str := sorted_len_reverse MEDIALS.

(** The first and the last precomposed Hangul syllable. *)
Definition HANGUL_FIRST : Z := 44032.           (* U+AC00 *)
Definition HANGUL_LAST : Z := 55203.            (* U+D7A3 *)

Definition is_hangul (char : Z) : bool :=
  (HANGUL_FIRST <=? ord char) && (ord char <=? HANGUL_LAST).

(** ** Core functions *)

(** The body of the loop of [encode]: one block is appended per character. *)
Definition encode_step (result : list str) (char : Z) : pyres (list str) :=
  if is_hangul char then
    let code := ord char - 44032 in
    let onset := code `div` 588 in
    let nucleus := (code `mod` 588) `div` 28 in
    let coda := code `mod` 28 in
    i <- getitem INITIALS onset ;;
    m <- getitem MEDIALS nucleus ;;
    f <- getitem FINALS coda ;;
    let syllable := i ++ m ++ f in
    Ok (result ++ [syllable])
  else
    Ok (result ++ [[char]]).

Definition encode (text : str) : pyres str :=
  result <- for_each encode_step text [] ;;
  Ok (str_join SEPARATOR result).

(** The inner loop of [decode]: the nucleus candidates are tried in order;
    the first one that occurs in [block] with an onset before it and a coda
    after it appends the syllable and breaks with [matched] set. *)
Fixpoint decode_scan (vowels : list str) (block : str) (result : list str)
  : pyres (list str * bool) :=
  match vowels with
  | [] => Ok (result, false)
  | vowel :: vowels' =>
      if str_contains vowel block then
        p <- str_partition block vowel ;;
        let '(onset_str, nucleus_str, coda_str) := p in
        if dict_in onset_str INITIAL_MAP && dict_in coda_str FINAL_MAP then
          onset <- dict_get INITIAL_MAP onset_str ;;
          nucleus <- dict_get MEDIAL_MAP nucleus_str ;;
          coda <- dict_get FINAL_MAP coda_str ;;
          let char_code := 44032 + (onset * 588) + (nucleus * 28) + coda in
          c <- chr char_code ;;
          Ok (result ++ [[c]], true)
        else decode_scan vowels' block result
      else decode_scan vowels' block result
  end.

(** The body of the outer loop of [decode]. *)
Definition decode_step (result : list str) (block : str)
  : pyres (list str) :=
  match block with
  | [] => Ok result
  | _ :: _ =>
      r <- decode_scan _SORTED_MEDIALS block result ;;
      let '(result', matched) := r in
      if negb matched then Ok (result' ++ [block]) else Ok result'
  end.

Definition QUOTES : str := lit "'" ++ [34].     (* the argument of strip *)
Definition SPACE : Z := 32.

Definition decode (text : str) : pyres str :=
  let text := str_strip QUOTES text in
  let text := str_replace SPACE (SEPARATOR ++ [SPACE] ++ SEPARATOR) text in
  let blocks := str_split SEP_CHAR text in
  result <- for_each decode_step blocks [] ;;
  Ok (str_join [] result).

(** ** Definitions used to state and prove the properties *)

(** [b = p ++ v ++ q] splits [b] at the first occurrence of [v]. *)
Definition first_occurrence (v b p q : str) : Prop :=
  b = p ++ v ++ q /\
  forall p' q', b = p' ++ v ++ q' -> (length p <= length p')%nat.

(** The order of the scan: [a] is at least as long as [b]. *)
Definition longer_eq (a b : str) : Prop := (length b <= length a)%nat.

(** Every nucleus candidate is a non-empty key of [MEDIAL_MAP]. *)
Definition is_vowel (v : str) : Prop := v <> [] /\ is_Some (MEDIAL_MAP !! v).

(** The code point that the nucleus candidate [v] gives for [block], if
    its first occurrence has an onset before it and a coda after it. *)
Definition candidate (v block : str) : option Z :=
  match find_first v block with
  | Some (p, q) =>
      match INITIAL_MAP !! p, MEDIAL_MAP !! v, FINAL_MAP !! q with
      | Some o, Some n, Some c => Some (44032 + o * 588 + n * 28 + c)
      | _, _, _ => None
      end
  | None => None
  end.

(** The code point of the first candidate of [vowels] that is accepted. *)
Fixpoint first_accept (vowels : list str) (block : str) : option Z :=
  match vowels with
  | [] => None
  | v :: vowels' =>
      match candidate v block with
      | Some ch => Some ch
      | None => first_accept vowels' block
      end
  end.

(** What [decode] emits for a block: nothing for an empty block, the
    syllable when a candidate is accepted, and the block itself otherwise. *)
Definition emit (block : str) : str :=
  match block with
  | [] => []
  | _ :: _ =>
      match first_accept _SORTED_MEDIALS block with
      | Some ch => [ch]
      | None => block
      end
  end.

(** The blocks that the loop of [decode] runs over. *)
Definition blocks_of (text : str) : list str :=
  str_split SEP_CHAR
    (str_replace SPACE (SEPARATOR ++ [SPACE] ++ SEPARATOR)
       (str_strip QUOTES text)).

(** The first occurrence of [v] in [block] has the onset of index [o]
    before it and the coda of index [c] after it, [v] being the nucleus of
    index [n]. *)
Definition valid_partition (v block : str) (o n c : nat) : Prop :=
  exists p q, first_occurrence v block p q
    /\ INITIALS !! o = Some p /\ MEDIALS !! n = Some v /\ FINALS !! c = Some q.

(** The nucleus token [v] is accepted for [block]. *)
Definition accepted (v block : str) : Prop :=
  exists o n c, valid_partition v block o n c.

(** The code point of the syllable with the three table indices. *)
Definition recompose (o n c : nat) : Z :=
  0xAC00 + Z.of_nat o * 588 + Z.of_nat n * 28 + Z.of_nat c.

(** The block that one turn of the loop of [encode] appends. *)
Definition encode_block (char : Z) : pyres str :=
  if is_hangul char then
    let code := ord char - 44032 in
    i <- getitem INITIALS (code `div` 588) ;;
    m <- getitem MEDIALS ((code `mod` 588) `div` 28) ;;
    f <- getitem FINALS (code `mod` 28) ;;
    Ok (i ++ m ++ f)
  else Ok [char].

(** The block of a syllable, the tables being read without a check. *)
Definition syllable (char : Z) : str :=
  let code := char - 44032 in
  nth (Z.to_nat (code `div` 588)) INITIALS []
  ++ nth (Z.to_nat ((code `mod` 588) `div` 28)) MEDIALS []
  ++ nth (Z.to_nat (code `mod` 28)) FINALS [].

(** The block of a character: its syllable block, or the character. *)
Definition block_of (char : Z) : str :=
  if is_hangul char then syllable char else [char].

(** A character that [decode] treats as ordinary text: neither a delimiter
    nor a quote. *)
Definition plain (c : Z) : bool :=
  negb (char_in c (SEP_CHAR :: SPACE :: QUOTES)).

(** The block of the [k]-th syllable is not empty, is made of plain
    characters, and is decoded to that syllable. *)
Definition syllable_ok (k : nat) : bool :=
  let char := 44032 + Z.of_nat k in
  let b := syllable char in
  match first_accept _SORTED_MEDIALS b with
  | Some ch => ch =? char
  | None => false
  end
  && match b with [] => false | _ :: _ => true end
  && forallb plain b.

(** What [decode] puts in place of a space. *)
Definition SOFT : str := SEPARATOR ++ [SPACE] ++ SEPARATOR.

(** A block that [encode] can produce: it is not empty, holds no separator,
    and holds a space only if it is the one-space block. *)
Definition good_block (b : str) : Prop :=
  b <> [] /\ (SEP_CHAR ∉ b) /\ (b = [SPACE] \/ SPACE ∉ b).

(** The characters that survive a round trip: the syllables, and the other
    characters apart from the separator and the one-character nucleus
    tokens. *)
Definition keeps (c : Z) : Prop :=
  0xAC00 <= c <= 0xD7A3 \/ (c <> SEP_CHAR /\ [c] ∉ MEDIALS).

(** The text in which every space has been replaced by the separator. *)
Definition space_to_sep (text : str) : str :=
  map (fun c => if c =? SPACE then SEP_CHAR else c) text.

(** A block of ordinary text: not empty and not the one-space block. *)
Definition text_block (b : str) : Prop := b <> [] /\ b <> [SPACE].

(** [decode] applied to the result of [encode]. *)
Definition decode_encode (text : str) : pyres str :=
  y <- encode text ;; decode y.

(** The one-character nucleus tokens: a, u, o, i and the four accented
    vowels. *)
Definition SHORT_VOWELS : str :=
  lit "auoi" ++ [a_uml; e_grave; o_uml; u_uml].

(** A text that mixes two syllables with a quote, a letter, a mark and a
    space. *)
Definition mixed_sample : str := [0xC548; 39; 107; 33; 32; 0xB155].

(** The block the spec gives for a character: the three tokens of a
    syllable, found by truncating division, or the character itself. *)
Definition spec_block (c : Z) : option str :=
  if decide (0xAC00 <= c <= 0xD7A3) then
    let code := c - 0xAC00 in
    onset ← INITIALS !! Z.to_nat (code ÷ 588);
    nucleus ← MEDIALS !! Z.to_nat (Z.rem code 588 ÷ 28);
    coda ← FINALS !! Z.to_nat (Z.rem code 28);
    Some (onset ++ nucleus ++ coda)
  else Some [c].

(** The blocks with one separator before every block but the first. *)
Definition spec_join (blocks : list str) : str :=
  match blocks with
  | [] => []
  | b :: bs => b ++ concat (map (fun b' => SEP_CHAR :: b') bs)
  end.

(** One layer of quotes: at most one character is removed at either end. *)
Definition trims_one_layer (text : str) : Prop :=
  exists pre post,
    text = pre ++ str_strip QUOTES text ++ post
    /\ (length pre <= 1)%nat /\ (length post <= 1)%nat.

(** ** Further definitions used to state properties *)

(** The lists of [ls] in order, with [sep] between two consecutive ones. *)
Fixpoint between {A} (sep : list A) (ls : list (list A)) : list A :=
  match ls with
  | [] => []
  | [l] => l
  | l :: ls' => l ++ sep ++ between sep ls'
  end.

(** No quote stands at either end of [t]. *)
Definition unquoted (t : str) : Prop :=
  (forall c, head t = Some c -> c ∉ QUOTES)
  /\ (forall c, last t = Some c -> c ∉ QUOTES).

(** The texts that a round trip gives back: syllables and other
    characters apart from the separator and the one-character nucleus
    tokens, with no quote at either end. *)
Definition roundtrip_safe (s : str) : Prop :=
  Forall (fun c => 0xAC00 <= c <= 0xD7A3
                   \/ (c <> SEP_CHAR /\ c ∉ SHORT_VOWELS)) s
  /\ unquoted s.

(** The letters of which every nucleus token holds at least one. *)
Definition VOWEL_LETTERS : str :=
  lit "aeiou" ++ [a_uml; e_grave; o_uml; u_uml].

(** A character of a token: Latin-1, and neither a delimiter nor a quote. *)
Definition token_char (c : Z) : Prop :=
  0 < c < 256 /\ c <> SEP_CHAR /\ c <> SPACE /\ c ∉ QUOTES.

(** * Proofs *)

(** Closed goals about the tables are decided by evaluation. *)
Ltac by_eval :=
  match goal with
  | |- ?P => apply (bool_decide_unpack P); vm_compute; exact I
  end.

(** The index of a token of [MEDIALS] is found by trying each in turn. *)
Ltac by_lookup_vowel :=
  first [ exact (eq_refl : MEDIALS !! 0%nat = Some _)
        | exact (eq_refl : MEDIALS !! 1%nat = Some _)
        | exact (eq_refl : MEDIALS !! 4%nat = Some _)
        | exact (eq_refl : MEDIALS !! 5%nat = Some _)
        | exact (eq_refl : MEDIALS !! 8%nat = Some _)
        | exact (eq_refl : MEDIALS !! 11%nat = Some _)
        | exact (eq_refl : MEDIALS !! 14%nat = Some _)
        | exact (eq_refl : MEDIALS !! 20%nat = Some _) ].

(** ** Examples of the module's behaviour *)

Example sorted_medials_value :
  _SORTED_MEDIALS =
  [ lit "yoo"; lit "e~i";
    lit "ya"; lit "y" ++ [a_uml]; lit "yu"; lit "y" ++ [e_grave]; lit "wa";
    lit "w" ++ [a_uml]; lit "yo"; lit "oo"; lit "w" ++ [e_grave]; lit "wi";
    lit "e~";
    lit "a"; [a_uml]; lit "u"; [e_grave]; lit "o"; [o_uml]; [u_uml];
    lit "i" ].
Proof. reflexivity. Qed.

Example encode_ga : encode [44032] = Ok (lit "ga").
Proof. vm_compute. reflexivity. Qed.

Example decode_ga : decode (lit "ga") = Ok [44032].
Proof. vm_compute. reflexivity. Qed.

Example decode_empty : decode [] = Ok [].
Proof. vm_compute. reflexivity. Qed.

(** ** The error monad and the loops *)

Lemma bind_Ok {A B} (a : A) (k : A -> pyres B) : bind (Ok a) k = k a.
Proof. reflexivity. Qed.

Lemma for_each_append {A B} (body : list B -> A -> pyres (list B))
    (unit : A -> list B) (xs : list A) (s : list B) :
  (forall s x, body s x = Ok (s ++ unit x)) ->
  for_each body xs s = Ok (s ++ concat (map unit xs)).
Proof.
  intros Hbody. revert s.
  induction xs as [|x xs IH]; intros s; simpl.
  - by rewrite app_nil_r.
  - rewrite Hbody. simpl. rewrite IH. by rewrite app_assoc.
Qed.

Lemma str_join_nil (blocks : list str) : str_join [] blocks = concat blocks.
Proof.
  induction blocks as [|b [|b' bs] IH]; simpl in *.
  - done.
  - by rewrite app_nil_r.
  - by rewrite IH.
Qed.

Lemma str_join_cons (sep b : str) (bs : list str) :
  bs <> [] -> str_join sep (b :: bs) = b ++ sep ++ str_join sep bs.
Proof. by destruct bs. Qed.

(** ** Splitting, replacing and stripping *)

Section Split.
  Variable sep : Z.

Lemma str_split_cons_sep (s : str) :
  str_split sep (sep :: s) = [] :: str_split sep s.
Proof. cbn [str_split]. by rewrite Z.eqb_refl. Qed.

Lemma str_split_cons_other (c : Z) (s b : str) (bs : list str) :
  c <> sep -> str_split sep s = b :: bs ->
  str_split sep (c :: s) = (c :: b) :: bs.
Proof.
  intros Hc Hs. cbn [str_split]. rewrite Hs.
  by destruct (Z.eqb_spec c sep).
Qed.

Lemma str_split_nonempty (s : str) : str_split sep s <> [].
Proof.
  destruct s as [|c s]; simpl; [done|].
  destruct (c =? sep); [done|]. by destruct (str_split sep s).
Qed.

Lemma str_split_app (a b : str) :
  str_split sep (a ++ sep :: b) = str_split sep a ++ str_split sep b.
Proof.
  induction a as [|c a IH]; simpl.
  - by rewrite Z.eqb_refl.
  - destruct (c =? sep); [by rewrite IH|].
    rewrite IH.
    pose proof (str_split_nonempty a) as Hne.
    by destruct (str_split sep a).
Qed.

Lemma str_split_free (s : str) :
  sep ∉ s -> str_split sep s = [s].
Proof.
  induction s as [|c s IH]; intros Hs; simpl; [done|].
  apply not_elem_of_cons in Hs as [Hc Hs].
  destruct (Z.eqb_spec c sep) as [->|_]; [done|].
  by rewrite IH.
Qed.

Lemma str_split_blocks_free (s : str) :
  Forall (fun b => sep ∉ b) (str_split sep s).
Proof.
  induction s as [|c s IH]; simpl.
  - repeat constructor. apply not_elem_of_nil.
  - destruct (Z.eqb_spec c sep) as [->|Hc].
    + constructor; [apply not_elem_of_nil | done].
    + destruct (str_split sep s) as [|b bs].
      * repeat constructor. by apply not_elem_of_cons; split; [|apply not_elem_of_nil].
      * inversion IH; subst. constructor; [|done].
        by apply not_elem_of_cons.
Qed.

Lemma str_split_join (bs : list str) :
  bs <> [] ->
  str_split sep (str_join [sep] bs) = concat (map (str_split sep) bs).
Proof.
  induction bs as [|b bs IH]; [done|]. intros _.
  destruct bs as [|b' bs].
  - simpl. by rewrite app_nil_r.
  - rewrite str_join_cons by done.
    change (b ++ [sep] ++ str_join [sep] (b' :: bs))
      with (b ++ sep :: str_join [sep] (b' :: bs)).
    rewrite str_split_app, IH by done. done.
Qed.

End Split.

Lemma str_replace_app (old : Z) (new a b : str) :
  str_replace old new (a ++ b) = str_replace old new a ++ str_replace old new b.
Proof.
  induction a as [|c a IH]; simpl; [done|].
  by rewrite IH, app_assoc.
Qed.

Lemma str_replace_free (old : Z) (new s : str) :
  old ∉ s -> str_replace old new s = s.
Proof.
  induction s as [|c s IH]; intros Hs; simpl; [done|].
  apply not_elem_of_cons in Hs as [Hc Hs].
  destruct (Z.eqb_spec c old) as [->|_]; [done|].
  by rewrite IH.
Qed.

Lemma str_replace_join (old : Z) (new sep : str) (bs : list str) :
  old ∉ sep ->
  str_replace old new (str_join sep bs)
  = str_join sep (map (str_replace old new) bs).
Proof.
  intros Hsep.
  induction bs as [|b [|b' bs] IH]; [done|done|].
  rewrite str_join_cons by done.
  rewrite !str_replace_app, IH, (str_replace_free _ _ sep) by done.
  done.
Qed.

Lemma char_in_spec (c : Z) (chars : str) :
  char_in c chars = true <-> c ∈ chars.
Proof.
  unfold char_in. rewrite existsb_exists. split.
  - intros (x & Hx & Heq). apply Z.eqb_eq in Heq as ->.
    by apply list_elem_of_In.
  - intros Hc. exists c. split; [by apply list_elem_of_In | apply Z.eqb_refl].
Qed.

Section Strip.
  Variable chars : str.

Lemma str_lstrip_split (s : str) :
  exists pre, s = pre ++ str_lstrip chars s
    /\ Forall (fun c => c ∈ chars) pre
    /\ (forall c, head (str_lstrip chars s) = Some c -> c ∉ chars).
Proof.
  induction s as [|c s (pre & Heq & Hpre & Hhd)]; simpl.
  - exists []. by repeat split.
  - destruct (char_in c chars) eqn:Hc.
    + exists (c :: pre). split; [by rewrite Heq at 1|]. split; [|done].
      constructor; [by apply char_in_spec | done].
    + exists []. split; [done|]. split; [done|].
      intros c' [= <-] Hin. apply char_in_spec in Hin. congruence.
Qed.

Lemma str_lstrip_id (s : str) :
  (forall c, head s = Some c -> c ∉ chars) -> str_lstrip chars s = s.
Proof.
  destruct s as [|c s]; simpl; [done|]. intros Hhd.
  destruct (char_in c chars) eqn:Hc; [|done].
  apply char_in_spec in Hc. by destruct (Hhd c).
Qed.

Lemma str_rstrip_split (s : str) :
  exists post, s = str_rstrip chars s ++ post
    /\ Forall (fun c => c ∈ chars) post
    /\ (forall c, last (str_rstrip chars s) = Some c -> c ∉ chars).
Proof.
  unfold str_rstrip.
  destruct (str_lstrip_split (reverse s)) as (pre & Heq & Hpre & Hhd).
  exists (reverse pre). split; [|split].
  - rewrite <- reverse_app, <- Heq. by rewrite reverse_involutive.
  - by apply Forall_reverse.
  - intros c. rewrite last_reverse. apply Hhd.
Qed.

Lemma str_rstrip_id (s : str) :
  (forall c, last s = Some c -> c ∉ chars) -> str_rstrip chars s = s.
Proof.
  intros Hl. unfold str_rstrip.
  rewrite str_lstrip_id; [apply reverse_involutive|].
  intros c. rewrite head_reverse. apply Hl.
Qed.

Lemma str_rstrip_head (s : str) (c : Z) :
  head (str_rstrip chars s) = Some c -> head s = Some c.
Proof.
  destruct (str_rstrip_split s) as (post & Heq & _ & _).
  intros Hhd. rewrite Heq.
  destruct (str_rstrip chars s); [done|]. done.
Qed.

Lemma str_strip_id (s : str) :
  (forall c, head s = Some c -> c ∉ chars) ->
  (forall c, last s = Some c -> c ∉ chars) ->
  str_strip chars s = s.
Proof.
  intros Hh Hl. unfold str_strip.
  rewrite str_lstrip_id by done. by apply str_rstrip_id.
Qed.

(** [strip] removes a maximal run of [chars] at either end. *)
Lemma str_strip_split (s : str) :
  exists pre post, s = pre ++ str_strip chars s ++ post
    /\ Forall (fun c => c ∈ chars) pre
    /\ Forall (fun c => c ∈ chars) post
    /\ (forall c, head (str_strip chars s) = Some c -> c ∉ chars)
    /\ (forall c, last (str_strip chars s) = Some c -> c ∉ chars).
Proof.
  unfold str_strip.
  destruct (str_lstrip_split s) as (pre & Hs & Hpre & Hhd).
  destruct (str_rstrip_split (str_lstrip chars s))
    as (post & Hr & Hpost & Hlast).
  exists pre, post. repeat split; try done.
  - by rewrite <- Hr.
  - intros c Hc. apply Hhd. by apply str_rstrip_head in Hc.
Qed.

Lemma str_strip_idemp (s : str) :
  str_strip chars (str_strip chars s) = str_strip chars s.
Proof.
  destruct (str_strip_split s) as (_ & _ & _ & _ & _ & Hh & Hl).
  by apply str_strip_id.
Qed.

End Strip.

(** ** Substring search *)

Lemma startswith_spec (v s : str) :
  startswith v s = true <-> exists q, s = v ++ q.
Proof.
  revert s. induction v as [|x v IH]; intros s; simpl.
  - split; [by exists s | done].
  - destruct s as [|c s].
    + split; [done | by intros (q & ?)].
    + rewrite andb_true_iff, Z.eqb_eq, IH. split.
      * intros (-> & q & ->). by exists q.
      * intros (q & [= -> ->]). eauto.
Qed.

Lemma startswith_drop (v s : str) :
  startswith v s = true -> s = v ++ drop (length v) s.
Proof.
  intros (q & ->)%startswith_spec. by rewrite drop_app_length.
Qed.

Lemma find_first_sound (v s p q : str) :
  find_first v s = Some (p, q) -> first_occurrence v s p q.
Proof.
  revert p q. induction s as [|c s IH]; intros p q; simpl.
  - destruct (startswith v []) eqn:Hsw; [|done].
    intros [= <- <-]. split; [|simpl; lia].
    by apply startswith_drop in Hsw.
  - destruct (startswith v (c :: s)) eqn:Hsw.
    + intros [= <- <-]. split; [|simpl; lia].
      by apply startswith_drop in Hsw.
    + destruct (find_first v s) as [[p0 q0]|] eqn:Hff; [|done].
      intros [= <- <-]. destruct (IH p0 q0 eq_refl) as [Heq Hmin].
      split; [simpl; by f_equal|].
      intros [|c' p'] q' Hs.
      * assert (startswith v (c :: s) = true) as Hsw'
          by (apply startswith_spec; by exists q').
        congruence.
      * injection Hs as -> Hs. simpl. apply Hmin in Hs. lia.
Qed.

Lemma find_first_complete (v s p q : str) :
  s = p ++ v ++ q -> is_Some (find_first v s).
Proof.
  intros ->. induction p as [|c p IH]; simpl.
  - assert (startswith v (v ++ q) = true) as Hsw
      by (apply startswith_spec; by exists q).
    destruct (v ++ q); simpl in *; by rewrite Hsw.
  - destruct (startswith v (c :: p ++ v ++ q)); [done|].
    destruct IH as [[p0 q0] ->]. done.
Qed.

Lemma first_occurrence_unique (v b p q p' q' : str) :
  first_occurrence v b p q -> first_occurrence v b p' q' ->
  p = p' /\ q = q'.
Proof.
  intros [Hb Hmin] [Hb' Hmin'].
  assert (length p = length p') as Hlen.
  { apply Nat.le_antisymm; [by eapply Hmin | by eapply Hmin']. }
  rewrite Hb in Hb'.
  apply app_inj_1 in Hb' as [-> Hq]; [|done].
  split; [done|]. by apply app_inv_head in Hq.
Qed.

Lemma find_first_spec (v s p q : str) :
  find_first v s = Some (p, q) <-> first_occurrence v s p q.
Proof.
  split; [apply find_first_sound|].
  intros Hfo. destruct (find_first_complete v s p q (proj1 Hfo))
    as [[p0 q0] Hff].
  rewrite Hff. apply find_first_sound in Hff.
  by destruct (first_occurrence_unique _ _ _ _ _ _ Hff Hfo) as [-> ->].
Qed.

Lemma str_contains_find_first (v s : str) :
  str_contains v s = match find_first v s with Some _ => true | None => false end.
Proof.
  induction s as [|c s IH]; simpl.
  - destruct (startswith v []); done.
  - destruct (startswith v (c :: s)); [done|]. simpl.
    rewrite IH. by destruct (find_first v s) as [[??]|].
Qed.

Lemma str_contains_spec (v s : str) :
  str_contains v s = true <-> exists p q, s = p ++ v ++ q.
Proof.
  rewrite str_contains_find_first. split.
  - destruct (find_first v s) as [[p q]|] eqn:Hff; [|done].
    intros _. apply find_first_sound in Hff as [-> _]. eauto.
  - intros (p & q & Hs).
    by destruct (find_first_complete v s p q Hs) as [? ->].
Qed.

(** ** The lookup tables built by a dict comprehension *)

Lemma index_map_from_sound (l : list str) (m : gmap str Z) (s : Z)
    (k : str) (z : Z) :
  foldl (fun m '(idx, val) => <[val := idx]> m) m (enumerate_from s l) !! k
    = Some z ->
  m !! k = Some z \/ (s <= z /\ l !! Z.to_nat (z - s) = Some k).
Proof.
  revert m s. induction l as [|x l IH]; intros m s; simpl; [by left|].
  intros [Hm|[Hle Hl]]%IH.
  - apply lookup_insert_Some in Hm as [[-> ->]|[_ Hm]]; [|by left].
    right. split; [lia|]. by rewrite Z.sub_diag.
  - right. split; [lia|].
    replace (Z.to_nat (z - s)) with (S (Z.to_nat (z - (s + 1)))) by lia.
    done.
Qed.

Lemma index_map_from_notin (l : list str) (m : gmap str Z) (s : Z)
    (k : str) :
  k ∉ l ->
  foldl (fun m '(idx, val) => <[val := idx]> m) m (enumerate_from s l) !! k
    = m !! k.
Proof.
  revert m s. induction l as [|x l IH]; intros m s Hk; simpl; [done|].
  apply not_elem_of_cons in Hk as [Hx Hk].
  rewrite IH by done. by apply lookup_insert_ne.
Qed.

Lemma index_map_from_complete (l : list str) (m : gmap str Z) (s : Z)
    (k : str) (n : nat) :
  NoDup l -> l !! n = Some k ->
  foldl (fun m '(idx, val) => <[val := idx]> m) m (enumerate_from s l) !! k
    = Some (s + Z.of_nat n).
Proof.
  revert m s n. induction l as [|x l IH]; intros m s n Hnd Hl; [done|].
  apply NoDup_cons in Hnd as [Hx Hnd]. simpl.
  destruct n as [|n]; simpl in Hl.
  - injection Hl as ->. rewrite index_map_from_notin by done.
    rewrite lookup_insert_eq. f_equal. lia.
  - rewrite (IH _ _ n) by done. f_equal. lia.
Qed.

(** A token is looked up at its position in the table. *)
Lemma index_map_lookup (l : list str) (k : str) (z : Z) :
  NoDup l ->
  index_map l !! k = Some z <-> 0 <= z /\ l !! Z.to_nat z = Some k.
Proof.
  intros Hnd. unfold index_map, enumerate. split.
  - intros [Hm|[Hle Hl]]%index_map_from_sound; [done|].
    by rewrite Z.sub_0_r in Hl.
  - intros [Hz Hl].
    rewrite (index_map_from_complete l _ 0 k (Z.to_nat z)) by done.
    f_equal. lia.
Qed.

Lemma index_map_bound (l : list str) (k : str) (z : Z) :
  NoDup l -> index_map l !! k = Some z -> 0 <= z < Z.of_nat (length l).
Proof.
  intros Hnd [Hz Hl]%index_map_lookup; [|done].
  apply lookup_lt_Some in Hl. lia.
Qed.

(** ** Sorting by descending length *)

Lemma insert_by_len_perm (x : str) (l : list str) :
  insert_by_len x l ≡ₚ x :: l.
Proof.
  induction l as [|y l IH]; simpl; [done|].
  destruct (length x <? length y)%nat; [|done].
  rewrite IH. apply Permutation_swap.
Qed.

Lemma sorted_len_reverse_perm (l : list str) : sorted_len_reverse l ≡ₚ l.
Proof.
  induction l as [|x l IH]; simpl; [done|].
  by rewrite insert_by_len_perm, IH.
Qed.

Lemma insert_by_len_sorted (x : str) (l : list str) :
  StronglySorted longer_eq l -> StronglySorted longer_eq (insert_by_len x l).
Proof.
  induction l as [|y l IH]; simpl; intros Hs.
  - repeat constructor.
  - apply StronglySorted_cons in Hs as [Hy Hs].
    destruct (Nat.ltb_spec (length x) (length y)) as [Hlt|Hge].
    + apply StronglySorted_cons. split; [|by apply IH].
      rewrite insert_by_len_perm. constructor; [unfold longer_eq; lia | done].
    + apply StronglySorted_cons. split; [|by apply StronglySorted_cons].
      constructor; [done|].
      eapply Forall_impl; [exact Hy|]. unfold longer_eq. intros; simpl in *; lia.
Qed.

Lemma sorted_len_reverse_sorted (l : list str) :
  StronglySorted longer_eq (sorted_len_reverse l).
Proof.
  induction l as [|x l IH]; simpl; [constructor|].
  by apply insert_by_len_sorted.
Qed.

(** The sort is stable: the tokens of any one length keep their order. *)
Lemma insert_by_len_stable (n : nat) (x : str) (l : list str) :
  filter (fun v => length v = n) (insert_by_len x l)
  = filter (fun v => length v = n) (x :: l).
Proof.
  induction l as [|y l IH]; [done|].
  cbn [insert_by_len].
  destruct (Nat.ltb_spec (length x) (length y)) as [Hlt|Hge]; [|done].
  rewrite (filter_cons _ y), IH, !filter_cons.
  repeat case_decide; try done; lia.
Qed.

Lemma sorted_len_reverse_stable (n : nat) (l : list str) :
  filter (fun v => length v = n) (sorted_len_reverse l)
  = filter (fun v => length v = n) l.
Proof.
  induction l as [|x l IH]; [done|].
  change (sorted_len_reverse (x :: l))
    with (insert_by_len x (sorted_len_reverse l)).
  by rewrite insert_by_len_stable, !filter_cons, IH.
Qed.

(** ** Facts about the three tables *)

Lemma INITIALS_length : length INITIALS = 19%nat.
Proof. reflexivity. Qed.

Lemma MEDIALS_length : length MEDIALS = 21%nat.
Proof. reflexivity. Qed.

Lemma FINALS_length : length FINALS = 28%nat.
Proof. reflexivity. Qed.

Lemma INITIALS_NoDup : NoDup INITIALS.
Proof. by_eval. Qed.

Lemma MEDIALS_NoDup : NoDup MEDIALS.
Proof. by_eval. Qed.

Lemma FINALS_NoDup : NoDup FINALS.
Proof. by_eval. Qed.

Lemma INITIAL_MAP_lookup (k : str) (z : Z) :
  INITIAL_MAP !! k = Some z <-> 0 <= z /\ INITIALS !! Z.to_nat z = Some k.
Proof. apply index_map_lookup, INITIALS_NoDup. Qed.

Lemma MEDIAL_MAP_lookup (k : str) (z : Z) :
  MEDIAL_MAP !! k = Some z <-> 0 <= z /\ MEDIALS !! Z.to_nat z = Some k.
Proof. apply index_map_lookup, MEDIALS_NoDup. Qed.

Lemma FINAL_MAP_lookup (k : str) (z : Z) :
  FINAL_MAP !! k = Some z <-> 0 <= z /\ FINALS !! Z.to_nat z = Some k.
Proof. apply index_map_lookup, FINALS_NoDup. Qed.

Lemma INITIAL_MAP_bound (k : str) (z : Z) :
  INITIAL_MAP !! k = Some z -> 0 <= z < 19.
Proof. intros H%index_map_bound; [done | apply INITIALS_NoDup]. Qed.

Lemma MEDIAL_MAP_bound (k : str) (z : Z) :
  MEDIAL_MAP !! k = Some z -> 0 <= z < 21.
Proof. intros H%index_map_bound; [done | apply MEDIALS_NoDup]. Qed.

Lemma FINAL_MAP_bound (k : str) (z : Z) :
  FINAL_MAP !! k = Some z -> 0 <= z < 28.
Proof. intros H%index_map_bound; [done | apply FINALS_NoDup]. Qed.

Lemma MEDIALS_vowels : Forall is_vowel MEDIALS.
Proof.
  apply Forall_lookup. intros n v Hv. split.
  - intros ->. apply lookup_lt_Some in Hv as Hn.
    rewrite MEDIALS_length in Hn.
    do 21 (destruct n as [|n]; [vm_compute in Hv; discriminate|]). lia.
  - exists (Z.of_nat n). apply MEDIAL_MAP_lookup.
    split; [lia|]. by rewrite Nat2Z.id.
Qed.

Lemma SORTED_MEDIALS_vowels : Forall is_vowel _SORTED_MEDIALS.
Proof.
  unfold _SORTED_MEDIALS. rewrite sorted_len_reverse_perm.
  apply MEDIALS_vowels.
Qed.

(** ** The inner loop of [decode] as a search *)

Lemma chr_Ok (i : Z) : 0 <= i < 1114112 -> chr i = Ok i.
Proof.
  intros Hi. unfold chr.
  destruct (Z.leb_spec 0 i); [|lia]. destruct (Z.ltb_spec i 1114112); [done|lia].
Qed.

Lemma decode_scan_eq (vowels : list str) (block : str) (result : list str) :
  Forall is_vowel vowels ->
  decode_scan vowels block result
  = Ok (match first_accept vowels block with
        | Some ch => (result ++ [[ch]], true)
        | None => (result, false)
        end).
Proof.
  induction 1 as [|v vowels [Hne [n Hn]] _ IH]; [reflexivity|].
  cbn [decode_scan first_accept].
  unfold candidate. rewrite str_contains_find_first.
  destruct (find_first v block) as [[p q]|] eqn:Hff; [|exact IH].
  unfold str_partition. rewrite Hff.
  destruct v as [|x v]; [congruence|]. cbn [bind].
  unfold dict_in, dict_get. rewrite Hn.
  destruct (INITIAL_MAP !! p) as [o|] eqn:Ho; [|exact IH].
  destruct (FINAL_MAP !! q) as [c|] eqn:Hc; [|exact IH].
  cbn [andb bind].
  apply INITIAL_MAP_bound in Ho. apply MEDIAL_MAP_bound in Hn.
  apply FINAL_MAP_bound in Hc.
  rewrite chr_Ok by lia. reflexivity.
Qed.

Lemma decode_step_eq (result : list str) (block : str) :
  decode_step result block
  = Ok (result ++ match block with [] => [] | _ :: _ => [emit block] end).
Proof.
  unfold decode_step, emit. destruct block as [|c block].
  - by rewrite app_nil_r.
  - rewrite decode_scan_eq by apply SORTED_MEDIALS_vowels. cbn [bind].
    destruct (first_accept _SORTED_MEDIALS (c :: block)); reflexivity.
Qed.

Lemma decode_eq (text : str) :
  decode text = Ok (concat (map emit (blocks_of text))).
Proof.
  unfold decode. fold (blocks_of text).
  rewrite (for_each_append decode_step
             (fun b => match b with [] => [] | _ :: _ => [emit b] end))
    by apply decode_step_eq.
  cbn [bind app]. rewrite str_join_nil. f_equal.
  induction (blocks_of text) as [|b bs IH]; [reflexivity|].
  cbn [map concat]. rewrite concat_app, IH.
  destruct b; [reflexivity|]. cbn [concat]. by rewrite app_nil_r.
Qed.

Lemma emit_nonempty_blocks (blocks : list str) :
  concat (map emit (filter (fun b => b <> []) blocks))
  = concat (map emit blocks).
Proof.
  induction blocks as [|b bs IH]; [reflexivity|].
  rewrite filter_cons. destruct (decide (b <> [])) as [Hb|Hb].
  - cbn [map concat]. by rewrite IH.
  - apply dec_stable in Hb as ->. exact IH.
Qed.

(** ** The search, in terms of the tables *)

Lemma candidate_spec (v block : str) (ch : Z) :
  candidate v block = Some ch
  <-> exists o n c, valid_partition v block o n c /\ ch = recompose o n c.
Proof.
  unfold candidate, valid_partition, recompose. split.
  - destruct (find_first v block) as [[p q]|] eqn:Hff; [|congruence].
    destruct (INITIAL_MAP !! p) as [o|] eqn:Ho; [|congruence].
    destruct (MEDIAL_MAP !! v) as [n|] eqn:Hn; [|congruence].
    destruct (FINAL_MAP !! q) as [c|] eqn:Hc; [|congruence].
    intros [= <-].
    apply INITIAL_MAP_lookup in Ho as [Ho0 Ho].
    apply MEDIAL_MAP_lookup in Hn as [Hn0 Hn].
    apply FINAL_MAP_lookup in Hc as [Hc0 Hc].
    apply find_first_spec in Hff.
    exists (Z.to_nat o), (Z.to_nat n), (Z.to_nat c).
    split; [by exists p, q|]. rewrite !Z2Nat.id by lia. reflexivity.
  - intros (o & n & c & (p & q & Hfo & Ho & Hn & Hc) & ->).
    apply find_first_spec in Hfo. rewrite Hfo.
    assert (INITIAL_MAP !! p = Some (Z.of_nat o)) as ->
      by (apply INITIAL_MAP_lookup; rewrite Nat2Z.id; split; [lia|exact Ho]).
    assert (MEDIAL_MAP !! v = Some (Z.of_nat n)) as ->
      by (apply MEDIAL_MAP_lookup; rewrite Nat2Z.id; split; [lia|exact Hn]).
    assert (FINAL_MAP !! q = Some (Z.of_nat c)) as ->
      by (apply FINAL_MAP_lookup; rewrite Nat2Z.id; split; [lia|exact Hc]).
    reflexivity.
Qed.

Lemma candidate_None (v block : str) :
  candidate v block = None <-> ~ accepted v block.
Proof.
  split.
  - intros Hc (o & n & c & Hv).
    assert (candidate v block = Some (recompose o n c)) as Hs
      by (apply candidate_spec; eauto).
    congruence.
  - intros Hna. destruct (candidate v block) as [ch|] eqn:Hc; [|reflexivity].
    apply candidate_spec in Hc as (o & n & c & Hv & _).
    destruct Hna. by exists o, n, c.
Qed.

Lemma first_accept_Some (vowels : list str) (block : str) (ch : Z) :
  first_accept vowels block = Some ch ->
  exists before v after,
    vowels = before ++ v :: after
    /\ Forall (fun v' => ~ accepted v' block) before
    /\ candidate v block = Some ch.
Proof.
  induction vowels as [|v vowels IH]; cbn [first_accept]; [congruence|].
  destruct (candidate v block) as [ch'|] eqn:Hc.
  - intros [= ->]. exists [], v, vowels. by repeat split.
  - intros (before & v' & after & -> & Hb & Hv')%IH.
    exists (v :: before), v', after. repeat split; [|exact Hv'].
    constructor; [by apply candidate_None | exact Hb].
Qed.

Lemma first_accept_None (vowels : list str) (block : str) :
  first_accept vowels block = None ->
  Forall (fun v => ~ accepted v block) vowels.
Proof.
  induction vowels as [|v vowels IH]; cbn [first_accept]; [by constructor|].
  destruct (candidate v block) as [ch'|] eqn:Hc; [congruence|].
  intros Hn. constructor; [by apply candidate_None | by apply IH].
Qed.

Lemma first_accept_rejects (vowels : list str) (block : str) :
  Forall (fun v => ~ accepted v block) vowels ->
  first_accept vowels block = None.
Proof.
  induction 1 as [|v vowels Hv _ IH]; [reflexivity|].
  cbn [first_accept]. apply candidate_None in Hv. by rewrite Hv.
Qed.

(** ** [encode], block by block *)

Lemma encode_step_eq (result : list str) (char : Z) :
  encode_step result char = (b <- encode_block char ;; Ok (result ++ [b])).
Proof.
  unfold encode_step, encode_block.
  destruct (is_hangul char); [|reflexivity]. cbv zeta.
  destruct (getitem INITIALS _); [|reflexivity]. cbn [bind].
  destruct (getitem MEDIALS _); [|reflexivity]. cbn [bind].
  destruct (getitem FINALS _); reflexivity.
Qed.

Lemma getitem_Ok (l : list str) (i : Z) :
  0 <= i < Z.of_nat (length l) -> getitem l i = Ok (nth (Z.to_nat i) l []).
Proof.
  intros Hi. unfold getitem.
  destruct (Z.ltb_spec i 0); [lia|].
  destruct (Z.leb_spec 0 i); [|lia].
  destruct (Z.ltb_spec i (Z.of_nat (length l))); [|lia]. cbn [andb].
  rewrite nth_lookup.
  destruct (lookup_lt_is_Some_2 l (Z.to_nat i)) as [x ->]; [lia|].
  reflexivity.
Qed.

Lemma is_hangul_spec (char : Z) :
  is_hangul char = true <-> 0xAC00 <= char <= 0xD7A3.
Proof.
  unfold is_hangul, ord, HANGUL_FIRST, HANGUL_LAST.
  rewrite andb_true_iff, !Z.leb_le. lia.
Qed.

(** The decomposition of [encode] stays inside the three tables. *)
Lemma decompose_bounds (char : Z) :
  0xAC00 <= char <= 0xD7A3 ->
  let code := char - 44032 in
  0 <= code `div` 588 < 19
  /\ 0 <= (code `mod` 588) `div` 28 < 21
  /\ 0 <= code `mod` 28 < 28.
Proof.
  intros Hc code. subst code.
  pose proof (Z.mod_pos_bound (char - 44032) 588 ltac:(lia)).
  pose proof (Z.mod_pos_bound (char - 44032) 28 ltac:(lia)).
  repeat split.
  - apply Z.div_pos; lia.
  - apply Z.div_lt_upper_bound; lia.
  - apply Z.div_pos; lia.
  - apply Z.div_lt_upper_bound; lia.
  - lia.
  - lia.
Qed.

Lemma encode_block_eq (char : Z) : encode_block char = Ok (block_of char).
Proof.
  unfold encode_block, block_of.
  destruct (is_hangul char) eqn:Hh; [|reflexivity].
  apply is_hangul_spec in Hh.
  destruct (decompose_bounds char Hh) as (Ho & Hn & Hc).
  unfold ord. cbv zeta.
  rewrite !getitem_Ok
    by (rewrite ?INITIALS_length, ?MEDIALS_length, ?FINALS_length; lia).
  reflexivity.
Qed.

Lemma encode_eq (text : str) :
  encode text = Ok (str_join SEPARATOR (map block_of text)).
Proof.
  unfold encode.
  rewrite (for_each_append encode_step (fun c => [block_of c])).
  - cbn [bind app]. do 2 f_equal.
    induction text as [|c text IH]; [reflexivity|].
    cbn [map concat app]. by rewrite IH.
  - intros s x. by rewrite encode_step_eq, encode_block_eq.
Qed.

(** ** Every syllable block decodes to its syllable *)

(** Checked by running the decoder on each of the 11172 syllable blocks. *)
Lemma syllables_ok : forallb syllable_ok (seq 0 (Z.to_nat 11172)) = true.
Proof. vm_compute. reflexivity. Qed.

Lemma syllable_facts (char : Z) :
  0xAC00 <= char <= 0xD7A3 ->
  first_accept _SORTED_MEDIALS (syllable char) = Some char
  /\ syllable char <> []
  /\ Forall (fun c => plain c = true) (syllable char).
Proof.
  intros Hc.
  pose proof syllables_ok as Hall. rewrite forallb_forall in Hall.
  specialize (Hall (Z.to_nat (char - 44032))).
  unfold syllable_ok in Hall. cbv zeta in Hall.
  replace (44032 + Z.of_nat (Z.to_nat (char - 44032))) with char in Hall
    by lia.
  specialize (Hall ltac:(apply in_seq; lia)).
  apply andb_true_iff in Hall as [Hall H3].
  apply andb_true_iff in Hall as [H1 H2].
  repeat split.
  - destruct (first_accept _SORTED_MEDIALS (syllable char)) as [ch|];
      [|discriminate].
    apply Z.eqb_eq in H1. by subst.
  - intros Heq. rewrite Heq in H2. discriminate.
  - apply Forall_forall. intros c Hin%list_elem_of_In.
    rewrite forallb_forall in H3. by apply H3.
Qed.

Lemma plain_spec (c : Z) :
  plain c = true <-> c <> SEP_CHAR /\ c <> SPACE /\ c ∉ QUOTES.
Proof.
  unfold plain. rewrite negb_true_iff, <- not_true_iff_false, char_in_spec.
  rewrite !not_elem_of_cons. tauto.
Qed.

Lemma emit_syllable (char : Z) :
  0xAC00 <= char <= 0xD7A3 -> emit (syllable char) = [char].
Proof.
  intros (Hfa & Hne & _)%syllable_facts. unfold emit.
  destruct (syllable char); [congruence|]. by rewrite Hfa.
Qed.

(** A one-character block is decoded only if it is a nucleus token. *)
Lemma accepted_singleton (v : str) (c : Z) :
  v <> [] -> accepted v [c] -> v = [c].
Proof.
  intros Hv (o & n & k & p & q & [Hb _] & _).
  destruct p as [|x p].
  - destruct v as [|y v]; [done|]. simpl in Hb.
    injection Hb as -> Hb. symmetry in Hb.
    by apply app_eq_nil in Hb as [-> _].
  - injection Hb as _ Hb. symmetry in Hb.
    apply app_eq_nil in Hb as [_ Hb]. by apply app_eq_nil in Hb as [-> _].
Qed.

Lemma emit_singleton (c : Z) : [c] ∉ MEDIALS -> emit [c] = [c].
Proof.
  intros Hc. unfold emit. rewrite first_accept_rejects; [reflexivity|].
  apply Forall_forall. intros v Hv Hacc.
  assert (is_vowel v) as [Hne _].
  { pose proof SORTED_MEDIALS_vowels as Hall.
    rewrite Forall_forall in Hall. by apply Hall. }
  apply accepted_singleton in Hacc as ->; [|done].
  apply Hc. unfold _SORTED_MEDIALS in Hv.
  by rewrite sorted_len_reverse_perm in Hv.
Qed.

(** ** Blocks survive the delimiter handling of [decode] *)

Lemma emit_split_replace (b : str) :
  good_block b ->
  concat (map emit (str_split SEP_CHAR (str_replace SPACE SOFT b))) = emit b.
Proof.
  intros (Hne & Hsep & [->|Hsp]).
  - change (str_split SEP_CHAR (str_replace SPACE SOFT [SPACE]))
      with [[]; [SPACE]; []].
    cbn [map concat]. change (emit []) with (@nil Z).
    by rewrite app_nil_l, !app_nil_r.
  - rewrite str_replace_free, str_split_free by done.
    cbn [map concat]. by rewrite app_nil_r.
Qed.

Lemma emit_split_join (bs : list str) :
  Forall good_block bs ->
  concat (map emit
    (str_split SEP_CHAR (str_replace SPACE SOFT (str_join SEPARATOR bs))))
  = concat (map emit bs).
Proof.
  intros Hbs. destruct (decide (bs = [])) as [->|Hne]; [reflexivity|].
  rewrite str_replace_join
    by (apply not_elem_of_cons; split; [done | apply not_elem_of_nil]).
  unfold SEPARATOR at 1. rewrite str_split_join by (by destruct bs).
  clear Hne. induction Hbs as [|b bs Hb _ IH]; [reflexivity|].
  cbn [map concat]. rewrite map_app, concat_app, IH.
  by rewrite emit_split_replace.
Qed.

Lemma head_str_join (sep b : str) (bs : list str) :
  b <> [] -> head (str_join sep (b :: bs)) = head b.
Proof. intros Hb. destruct b; [done|]. by destruct bs. Qed.

Lemma last_str_join (sep : str) (bs : list str) (b : str) :
  last bs = Some b -> b <> [] -> last (str_join sep bs) = last b.
Proof.
  induction bs as [|b0 bs IH]; [done|]. intros Hl Hb.
  destruct bs as [|b1 bs].
  - by injection Hl as ->.
  - rewrite str_join_cons by done.
    rewrite app_assoc, last_app.
    rewrite IH by done. destruct (last b) eqn:Hlb; [done|].
    apply last_None in Hlb. done.
Qed.

(** ** The round trip *)

Lemma block_of_good (c : Z) : keeps c -> good_block (block_of c).
Proof.
  intros Hk. unfold block_of.
  destruct (is_hangul c) eqn:Hh.
  - apply is_hangul_spec, syllable_facts in Hh as (_ & Hne & Hpl).
    split; [done|]. rewrite Forall_forall in Hpl. split.
    + intros Hin%Hpl%plain_spec. tauto.
    + right. intros Hin%Hpl%plain_spec. tauto.
  - destruct Hk as [Hk|[Hsep _]].
    { apply is_hangul_spec in Hk. congruence. }
    split; [done|]. split.
    + apply not_elem_of_cons. split; [done | apply not_elem_of_nil].
    + destruct (decide (c = SPACE)) as [->|Hsp]; [by left|right].
      apply not_elem_of_cons. split; [done | apply not_elem_of_nil].
Qed.

Lemma emit_block_of (c : Z) : keeps c -> emit (block_of c) = [c].
Proof.
  intros Hk. unfold block_of. destruct (is_hangul c) eqn:Hh.
  - by apply emit_syllable, is_hangul_spec.
  - destruct Hk as [Hk|[_ Hv]].
    { apply is_hangul_spec in Hk. congruence. }
    by apply emit_singleton.
Qed.

Lemma block_of_ends (c x : Z) :
  keeps c -> c ∉ QUOTES ->
  head (block_of c) = Some x \/ last (block_of c) = Some x -> x ∉ QUOTES.
Proof.
  intros Hk Hq Hx. unfold block_of in Hx.
  destruct (is_hangul c) eqn:Hh.
  - apply is_hangul_spec, syllable_facts in Hh as (_ & _ & Hpl).
    rewrite Forall_forall in Hpl.
    assert (x ∈ syllable c) as Hin.
    { destruct Hx as [Hx|Hx];
        [by apply head_Some_elem_of | by apply last_Some_elem_of]. }
    apply Hpl, plain_spec in Hin. tauto.
  - destruct Hx as [Hx|Hx]; injection Hx as <-; done.
Qed.

(** Decoding the encoding of a text gives the text back, provided its
    characters are kept and no quote stands at either end. *)
Lemma roundtrip (text : str) :
  Forall keeps text ->
  (forall c, head text = Some c -> c ∉ QUOTES) ->
  (forall c, last text = Some c -> c ∉ QUOTES) ->
  decode (str_join SEPARATOR (map block_of text)) = Ok text.
Proof.
  intros Hk Hhd Hlast. rewrite decode_eq. f_equal. unfold blocks_of.
  assert (Forall good_block (map block_of text)) as Hgood.
  { apply Forall_fmap. eapply Forall_impl; [exact Hk|]. apply block_of_good. }
  rewrite str_strip_id.
  - fold SOFT. rewrite emit_split_join by done.
    clear Hhd Hlast Hgood. induction Hk as [|c text Hc _ IH]; [reflexivity|].
    cbn [map concat]. by rewrite IH, emit_block_of.
  - destruct text as [|c text]; [done|]. cbn [map].
    inversion Hk as [|?? Hc _]; subst.
    rewrite head_str_join by (by apply block_of_good).
    intros x Hx. eapply (block_of_ends c); eauto.
  - destruct (last text) as [c|] eqn:Hl.
    + assert (keeps c) as Hc.
      { rewrite Forall_forall in Hk. by apply Hk, last_Some_elem_of. }
      rewrite (last_str_join _ _ (block_of c)).
      * intros x Hx. eapply (block_of_ends c); eauto.
      * change (map block_of text) with (block_of <$> text).
        by rewrite fmap_last, Hl.
      * by apply block_of_good.
    + apply last_None in Hl as ->. done.
Qed.

(** ** What [decode] emits *)

Lemma recompose_ge (o n c : nat) : 0xAC00 <= recompose o n c.
Proof. unfold recompose. lia. Qed.

(** A character of an emitted unit comes from the block or is a
    recomposed code point. *)
Lemma emit_chars (block : str) (c : Z) :
  c ∈ emit block -> c ∈ block \/ 0xAC00 <= c.
Proof.
  unfold emit. destruct block as [|x block]; [by left|].
  destruct (first_accept _SORTED_MEDIALS (x :: block)) as [ch|] eqn:Hfa;
    [|by left].
  intros ->%list_elem_of_singleton. right.
  apply first_accept_Some in Hfa as (_ & v & _ & _ & _ & Hc).
  apply candidate_spec in Hc as (o & n & k & _ & ->).
  apply recompose_ge.
Qed.

Lemma filter_all {A} (P : A -> Prop) `{!forall x, Decision (P x)}
    (l : list A) :
  Forall P l -> filter P l = l.
Proof.
  induction 1 as [|x l Hx _ IH]; [reflexivity|].
  rewrite filter_cons, IH. by destruct (decide (P x)).
Qed.

Lemma SPACE_not_vowel : [SPACE] ∉ MEDIALS.
Proof. by_eval. Qed.

(** ** Spaces as delimiters *)

Lemma text_block_free (b : str) : SPACE ∉ b -> text_block b <-> b <> [].
Proof.
  intros Hsp. unfold text_block. split; [tauto|]. intros Hb. split; [done|].
  intros ->. apply Hsp. by apply list_elem_of_singleton.
Qed.

Lemma filter_text_block_free (b : str) (bs bs' : list str) :
  SPACE ∉ b ->
  filter text_block bs = filter (fun x => x <> []) bs' ->
  filter text_block (b :: bs) = filter (fun x => x <> []) (b :: bs').
Proof.
  intros Hsp Heq. rewrite !filter_cons, Heq.
  pose proof (text_block_free b Hsp).
  destruct (decide (text_block b)), (decide (b <> [])); tauto.
Qed.

Lemma split_soft_vs_sep (t : str) :
  exists b bs bs',
    str_split SEP_CHAR (str_replace SPACE SOFT t) = b :: bs
    /\ str_split SEP_CHAR (space_to_sep t) = b :: bs'
    /\ (SPACE ∉ b)
    /\ Forall (fun x => x = [SPACE] \/ SPACE ∉ x) bs
    /\ filter text_block bs = filter (fun x => x <> []) bs'.
Proof.
  induction t as [|c t (b & bs & bs' & HS & HS' & Hb & Hbs & Hf)].
  - exists [], [], []. repeat split; [apply not_elem_of_nil | constructor].
  - cbn [str_replace space_to_sep map]. fold (space_to_sep t).
    destruct (Z.eqb_spec c SPACE) as [->|Hsp].
    + exists [], ([SPACE] :: b :: bs), (b :: bs'). split; [|split; [|split]].
      * change (SOFT ++ str_replace SPACE SOFT t)
          with (SEP_CHAR :: SPACE :: SEP_CHAR :: str_replace SPACE SOFT t).
        rewrite str_split_cons_sep. f_equal.
        apply str_split_cons_other; [done|].
        by rewrite str_split_cons_sep, HS.
      * by rewrite str_split_cons_sep, HS'.
      * apply not_elem_of_nil.
      * split; [constructor; [by left|constructor; [by right|done]]|].
        rewrite filter_cons.
        destruct (decide (text_block [SPACE])) as [[_ Hn]|_]; [done|].
        by apply filter_text_block_free.
    + change ([c] ++ str_replace SPACE SOFT t)
        with (c :: str_replace SPACE SOFT t).
      destruct (decide (c = SEP_CHAR)) as [->|Hsep].
      * exists [], (b :: bs), (b :: bs'). split; [|split; [|split]].
        -- by rewrite str_split_cons_sep, HS.
        -- by rewrite str_split_cons_sep, HS'.
        -- apply not_elem_of_nil.
        -- split; [constructor; [by right|done]|].
           by apply filter_text_block_free.
      * exists (c :: b), bs, bs'. split; [|split; [|split]].
        -- by apply str_split_cons_other.
        -- by apply str_split_cons_other.
        -- by apply not_elem_of_cons.
        -- by split.
Qed.

Lemma char_in_space_to_sep (c : Z) :
  char_in (if c =? SPACE then SEP_CHAR else c) QUOTES = char_in c QUOTES.
Proof. by destruct (Z.eqb_spec c SPACE) as [->|]. Qed.

Lemma str_lstrip_space_to_sep (t : str) :
  str_lstrip QUOTES (space_to_sep t) = space_to_sep (str_lstrip QUOTES t).
Proof.
  induction t as [|c t IH]; [reflexivity|].
  cbn [space_to_sep map str_lstrip]. fold (space_to_sep t).
  rewrite char_in_space_to_sep.
  destruct (char_in c QUOTES); [exact IH | reflexivity].
Qed.

Lemma space_to_sep_reverse (t : str) :
  space_to_sep (reverse t) = reverse (space_to_sep t).
Proof. apply (fmap_reverse (fun c => if c =? SPACE then SEP_CHAR else c)). Qed.

Lemma str_strip_space_to_sep (t : str) :
  str_strip QUOTES (space_to_sep t) = space_to_sep (str_strip QUOTES t).
Proof.
  unfold str_strip, str_rstrip.
  by rewrite str_lstrip_space_to_sep, <- space_to_sep_reverse,
    str_lstrip_space_to_sep, space_to_sep_reverse.
Qed.

Lemma str_replace_space_to_sep (t : str) :
  str_replace SPACE SOFT (space_to_sep t) = space_to_sep t.
Proof.
  apply str_replace_free. unfold space_to_sep.
  intros (c & Hc & _)%(list_elem_of_fmap
    (fun c => if c =? SPACE then SEP_CHAR else c)).
  by destruct (Z.eqb_spec c SPACE).
Qed.

(** Deleting the spaces of the result deletes the one-space blocks. *)
Lemma filter_space_emit (bs : list str) :
  Forall (fun x => x = [SPACE] \/ SPACE ∉ x) bs ->
  filter (fun c => c <> SPACE) (concat (map emit bs))
  = concat (map emit (filter text_block bs)).
Proof.
  induction 1 as [|x bs Hx _ IH]; [reflexivity|].
  cbn [map concat]. rewrite filter_app, IH, filter_cons.
  destruct Hx as [->|Hsp].
  - rewrite emit_singleton by apply SPACE_not_vowel.
    destruct (decide (text_block [SPACE])) as [[_ Hn]|_]; [done|].
    rewrite filter_cons. by destruct (decide (SPACE <> SPACE)).
  - rewrite filter_all.
    2:{ apply Forall_forall. intros c [Hc|Hc]%emit_chars Heq; subst; [done|].
        unfold SPACE in Hc. lia. }
    destruct (decide (text_block x)) as [_|Hn]; [reflexivity|].
    rewrite text_block_free in Hn by done.
    apply dec_stable in Hn as ->. reflexivity.
Qed.

Lemma not_quote (c : Z) : c <> 39 -> c <> 34 -> c ∉ QUOTES.
Proof.
  intros H1 H2. change QUOTES with [39; 34].
  rewrite !not_elem_of_cons. repeat split; [done|done|apply not_elem_of_nil].
Qed.

(** * The properties of the codec *)

(** ** Round trip on syllables *)

(** C1: for every string whose characters all lie in the syllabic range
    U+AC00..U+D7A3, [decode (encode x)] returns [x]. *)
Theorem decode_encode_syllables (x : str) :
  Forall (fun c => 0xAC00 <= c <= 0xD7A3) x ->
  decode_encode x = Ok x.
Proof.
  intros Hx. unfold decode_encode. rewrite encode_eq. cbn [bind].
  apply roundtrip.
  - eapply Forall_impl; [exact Hx|]. intros c Hc. by left.
  - destruct x as [|c x]; [done|]. intros ? [= <-].
    inversion Hx as [|?? Hc _]; subst.
    apply not_quote; lia.
  - intros c Hc%last_Some_elem_of.
    rewrite Forall_forall in Hx. apply Hx in Hc.
    apply not_quote; lia.
Qed.

Lemma decode_encode_syllables_witness :
  Forall (fun c => 0xAC00 <= c <= 0xD7A3) [0xC548; 0xB155]
  /\ decode_encode [0xC548; 0xB155] = Ok [0xC548; 0xB155].
Proof.
  assert (Forall (fun c => 0xAC00 <= c <= 0xD7A3) [0xC548; 0xB155]) as H
    by (repeat constructor; lia).
  split; [exact H | exact (decode_encode_syllables _ H)].
Defined.

(** ** Round trip on mixed text *)

Lemma short_vowel (c : Z) : [c] ∈ MEDIALS -> c ∈ SHORT_VOWELS.
Proof.
  unfold MEDIALS. rewrite !elem_of_cons.
  intros H. unfold SHORT_VOWELS.
  repeat (destruct H as [H|H];
          [first [discriminate H
                 | injection H as ->;
                   by_eval]|]).
  by apply elem_of_nil in H.
Qed.

(** C2, as the spec states it, fails: the one-character block of a plain
    "a" is itself a syllable block (no onset, nucleus a, no coda), and a
    quote at an end of the encoded text is stripped by [decode]. *)
Lemma decode_encode_mixed_counterexample :
  ((SEP_CHAR ∉ lit "a")
   /\ Forall (fun c => ~ 0xAC00 <= c <= 0xD7A3) (lit "a")
   /\ decode_encode (lit "a") = Ok [0xC544]
   /\ decode_encode (lit "a") <> Ok (lit "a"))
  /\ ((SEP_CHAR ∉ lit "'")
      /\ decode_encode (lit "'") = Ok []
      /\ decode_encode (lit "'") <> Ok (lit "'")).
Proof.
  assert (decode_encode (lit "a") = Ok [0xC544]) as Ha
    by (vm_compute; reflexivity).
  assert (decode_encode (lit "'") = Ok []) as Hq
    by (vm_compute; reflexivity).
  split; [split; [|split; [|split]] | split; [|split]].
  - by_eval.
  - change (lit "a") with [97]. constructor; [lia | constructor].
  - exact Ha.
  - rewrite Ha. discriminate.
  - by_eval.
  - exact Hq.
  - rewrite Hq. discriminate.
Qed.

(** C2 (amended): for every string made of syllables and of other
    characters that are neither the separator nor one of the eight
    one-character nucleus tokens, and that neither begins nor ends with a
    quote character, [decode (encode s)] returns [s]. *)
Theorem decode_encode_mixed (s : str) :
  Forall (fun c => 0xAC00 <= c <= 0xD7A3
                   \/ (c <> SEP_CHAR /\ c ∉ SHORT_VOWELS)) s ->
  (forall c, head s = Some c -> c ∉ QUOTES) ->
  (forall c, last s = Some c -> c ∉ QUOTES) ->
  decode_encode s = Ok s.
Proof.
  intros Hs Hhd Hlast. unfold decode_encode. rewrite encode_eq. cbn [bind].
  apply roundtrip; [|done|done].
  eapply Forall_impl; [exact Hs|].
  intros c [Hc|[Hsep Hv]]; [by left|right].
  split; [done|]. intros Hin. by apply Hv, short_vowel.
Qed.

Lemma decode_encode_mixed_witness :
  Forall (fun c => 0xAC00 <= c <= 0xD7A3
                   \/ (c <> SEP_CHAR /\ c ∉ SHORT_VOWELS)) mixed_sample
  /\ decode_encode mixed_sample = Ok mixed_sample.
Proof.
  assert (Forall (fun c => 0xAC00 <= c <= 0xD7A3
                   \/ (c <> SEP_CHAR /\ c ∉ SHORT_VOWELS)) mixed_sample)
    as Hs.
  { unfold mixed_sample.
    repeat (constructor;
      [first [ left; lia
             | right; split; [discriminate|];
               by_eval ]|]).
    constructor. }
  split; [exact Hs|].
  apply (decode_encode_mixed mixed_sample Hs).
  - intros c [= <-]. apply not_quote; lia.
  - intros c [= <-]. apply not_quote; lia.
Defined.

(** ** The encoder, block by block *)

Lemma spec_block_eq (c : Z) : spec_block c = Some (block_of c).
Proof.
  unfold spec_block, block_of.
  destruct (decide (0xAC00 <= c <= 0xD7A3)) as [Hc|Hc].
  - assert (is_hangul c = true) as -> by by apply is_hangul_spec.
    destruct (decompose_bounds c Hc) as (Ho & Hn & Hk).
    cbv zeta. change 0xAC00 with 44032.
    pose proof (Z.mod_pos_bound (c - 44032) 588 ltac:(lia)) as Hm.
    rewrite !Z.rem_mod_nonneg by lia.
    rewrite !Z.quot_div_nonneg by lia.
    unfold syllable. cbv zeta. rewrite !nth_lookup.
    destruct (lookup_lt_is_Some_2 INITIALS
                (Z.to_nat ((c - 44032) `div` 588))) as [o ->];
      [rewrite INITIALS_length; lia|].
    destruct (lookup_lt_is_Some_2 MEDIALS
                (Z.to_nat (((c - 44032) `mod` 588) `div` 28))) as [n ->];
      [rewrite MEDIALS_length; lia|].
    destruct (lookup_lt_is_Some_2 FINALS
                (Z.to_nat ((c - 44032) `mod` 28))) as [k ->];
      [rewrite FINALS_length; lia|].
    reflexivity.
  - destruct (is_hangul c) eqn:Hh; [|reflexivity].
    by apply is_hangul_spec in Hh.
Qed.

Lemma spec_join_eq (blocks : list str) :
  str_join SEPARATOR blocks = spec_join blocks.
Proof.
  destruct blocks as [|b bs]; [reflexivity|].
  revert b. induction bs as [|b' bs IH]; intros b.
  - cbn. by rewrite app_nil_r.
  - rewrite str_join_cons by done. rewrite IH. reflexivity.
Qed.

(** C3: [encode] maps a character of the syllabic range to
    Onset[code div 588] ++ Nucleus[(code mod 588) div 28] ++ Coda[code mod 28]
    with code = cp - 0xAC00 and truncating division, maps any other
    character to itself as a one-character block, and joins the blocks
    with exactly one separator between consecutive blocks and none before
    the first or after the last. *)
Theorem encode_blocks (text : str) :
  exists blocks,
    Forall2 (fun c b => spec_block c = Some b) text blocks
    /\ encode text = Ok (spec_join blocks).
Proof.
  exists (map block_of text). split.
  - induction text as [|c text IH]; constructor; [apply spec_block_eq | exact IH].
  - by rewrite encode_eq, spec_join_eq.
Qed.

(** ** Longest-match decoding of a block *)

Lemma SORTED_MEDIALS_perm : _SORTED_MEDIALS ≡ₚ MEDIALS.
Proof. apply sorted_len_reverse_perm. Qed.

Lemma SORTED_MEDIALS_sorted : StronglySorted longer_eq _SORTED_MEDIALS.
Proof. apply sorted_len_reverse_sorted. Qed.

(** A candidate that comes after [v] in the scan is not longer than [v],
    and one that comes before was tried first. *)
Lemma scan_order (before after : list str) (v v' : str) :
  _SORTED_MEDIALS = before ++ v :: after ->
  v' ∈ MEDIALS -> v' ∉ before -> (length v' <= length v)%nat.
Proof.
  intros Heq Hin Hnb.
  rewrite <- SORTED_MEDIALS_perm, Heq in Hin.
  apply elem_of_app in Hin as [Hin|Hin]; [done|].
  apply elem_of_cons in Hin as [->|Hin]; [done|].
  pose proof SORTED_MEDIALS_sorted as Hs. rewrite Heq in Hs.
  apply StronglySorted_app in Hs as (_ & _ & Hs).
  apply StronglySorted_cons in Hs as [Hall _].
  rewrite Forall_forall in Hall. by apply Hall.
Qed.

(** C4: for a non-empty block, [decode] tries the nucleus tokens in
    descending length, tokens of one length in table order, splits the block
    at the first occurrence of a token that occurs in it, and accepts the
    first token with an onset before it and a coda after it; the accepted
    indices are recomposed as 0xAC00 + onset*588 + nucleus*28 + coda.  The
    accepted token is a longest one among the tokens whose first
    occurrence has an onset before it and a coda after it.  When no token is
    accepted the block itself is appended. *)
Theorem decode_block_longest_match (block : str) (result : list str) :
  block <> [] ->
  (_SORTED_MEDIALS ≡ₚ MEDIALS
   /\ StronglySorted longer_eq _SORTED_MEDIALS
   /\ forall n, filter (fun v => length v = n) _SORTED_MEDIALS
                = filter (fun v => length v = n) MEDIALS)
  /\ ((exists before v after o n c,
         _SORTED_MEDIALS = before ++ v :: after
         /\ Forall (fun v' => ~ accepted v' block) before
         /\ valid_partition v block o n c
         /\ (forall v', v' ∈ MEDIALS -> accepted v' block ->
                        (length v' <= length v)%nat)
         /\ decode_step result block = Ok (result ++ [[recompose o n c]]))
      \/ (Forall (fun v => ~ accepted v block) MEDIALS
          /\ decode_step result block = Ok (result ++ [block]))).
Proof.
  intros Hne. split.
  { split; [apply SORTED_MEDIALS_perm|].
    split; [apply SORTED_MEDIALS_sorted|].
    intros n. apply sorted_len_reverse_stable. }
  rewrite decode_step_eq. unfold emit.
  destruct block as [|x block]; [done|].
  destruct (first_accept _SORTED_MEDIALS (x :: block)) as [ch|] eqn:Hfa.
  - left.
    apply first_accept_Some in Hfa as (before & v & after & Heq & Hb & Hc).
    apply candidate_spec in Hc as (o & n & c & Hv & ->).
    exists before, v, after, o, n, c. repeat split; try done.
    intros v' Hin Hacc. eapply scan_order; [exact Heq | exact Hin |].
    intros Hvb. rewrite Forall_forall in Hb. by apply (Hb v').
  - right. split; [|reflexivity].
    apply first_accept_None in Hfa. by rewrite <- SORTED_MEDIALS_perm.
Qed.

Lemma decode_block_longest_match_witness :
  lit "nyoon" <> []
  /\ ((exists before v after o n c,
         _SORTED_MEDIALS = before ++ v :: after
         /\ Forall (fun v' => ~ accepted v' (lit "nyoon")) before
         /\ valid_partition v (lit "nyoon") o n c
         /\ (forall v', v' ∈ MEDIALS -> accepted v' (lit "nyoon") ->
                        (length v' <= length v)%nat)
         /\ decode_step [] (lit "nyoon") = Ok ([] ++ [[recompose o n c]]))
      \/ (Forall (fun v => ~ accepted v (lit "nyoon")) MEDIALS
          /\ decode_step [] (lit "nyoon") = Ok ([] ++ [lit "nyoon"]))).
Proof.
  assert (lit "nyoon" <> []) as H by discriminate.
  split; [exact H | exact (proj2 (decode_block_longest_match _ [] H))].
Defined.

Example decode_nyoon : decode (lit "nyoon") = Ok [0xB278].
Proof. vm_compute. reflexivity. Qed.

(** ** Totality of [decode] *)

(** C5: [decode] returns on every input, raising nothing; an empty block
    of the split is skipped, and a non-empty block in which no nucleus
    token has an onset before and a coda after it is emitted unchanged. *)
Theorem decode_total (text : str) :
  exists units,
    decode text = Ok (concat units)
    /\ Forall2 (fun block unit =>
                  (block = [] -> unit = [])
                  /\ (block <> [] ->
                      Forall (fun v => ~ accepted v block) MEDIALS ->
                      unit = block))
         (blocks_of text) units.
Proof.
  exists (map emit (blocks_of text)). split; [apply decode_eq|].
  induction (blocks_of text) as [|b bs IH]; constructor; [|exact IH].
  split.
  - by intros ->.
  - intros Hne Hrej. unfold emit. destruct b as [|x b]; [done|].
    rewrite first_accept_rejects; [reflexivity|].
    by rewrite SORTED_MEDIALS_perm.
Qed.

(** ** The example with plain text *)

(** C6, as the spec states it, fails in its second half: the block "a" is
    the syllable block of U+C544. *)
Lemma encode_decode_plain_counterexample :
  ~ (encode (lit "a!") = Ok (lit "a\!")
     /\ decode (lit "a\!") = Ok (lit "a!")).
Proof.
  intros [_ Hd].
  assert (decode (lit "a\!") = Ok [0xC544; 33]) as Hv
    by (vm_compute; reflexivity).
  rewrite Hv in Hd. discriminate.
Qed.

(** C6 (amended): [encode "a!"] is "a", the separator, "!"; [decode] of
    that result returns U+C544 followed by "!". *)
Theorem encode_decode_plain :
  encode (lit "a!") = Ok (lit "a" ++ SEPARATOR ++ lit "!")
  /\ decode (lit "a" ++ SEPARATOR ++ lit "!") = Ok ([0xC544] ++ lit "!").
Proof. split; vm_compute; reflexivity. Qed.

(** ** Spaces and the separator *)

(** C7, as the spec states it, fails: a space ends a block as a separator
    does, but it stays in the block sequence as a one-space block and in
    the result, so the space-delimited input and the separator-delimited one
    differ in both. *)
Lemma space_delimiter_counterexample :
  space_to_sep (lit "ga na") = lit "ga\na"
  /\ filter (fun b => b <> []) (blocks_of (lit "ga na"))
     <> filter (fun b => b <> []) (blocks_of (lit "ga\na"))
  /\ decode (lit "ga na") = Ok [0xAC00; SPACE; 0xB098]
  /\ decode (lit "ga\na") = Ok [0xAC00; 0xB098]
  /\ decode (lit "ga na") <> decode (lit "ga\na").
Proof.
  assert (decode (lit "ga na") = Ok [0xAC00; SPACE; 0xB098]) as H1
    by (vm_compute; reflexivity).
  assert (decode (lit "ga\na") = Ok [0xAC00; 0xB098]) as H2
    by (vm_compute; reflexivity).
  split; [reflexivity|]. split; [|split; [exact H1|split; [exact H2|]]].
  - vm_compute. discriminate.
  - rewrite H1, H2. discriminate.
Qed.

(** Every block is the one-space block or holds no space; the other
    non-empty blocks are those of the input in which every space is replaced
    by the separator, whose result is the result of the input with its
    spaces deleted. *)
Lemma space_blocks_filtered (text : str) :
  Forall (fun b => b = [SPACE] \/ SPACE ∉ b) (blocks_of text)
  /\ filter text_block (blocks_of text)
     = filter (fun b => b <> []) (blocks_of (space_to_sep text))
  /\ exists r,
       decode text = Ok r
       /\ decode (space_to_sep text) = Ok (filter (fun c => c <> SPACE) r).
Proof.
  assert (blocks_of (space_to_sep text)
          = str_split SEP_CHAR (space_to_sep (str_strip QUOTES text))) as Hsep.
  { unfold blocks_of. fold SOFT.
    by rewrite str_strip_space_to_sep, str_replace_space_to_sep. }
  destruct (split_soft_vs_sep (str_strip QUOTES text))
    as (b & bs & bs' & HS & HS' & Hb & Hbs & Hf).
  assert (blocks_of text = b :: bs) as Hblocks by exact HS.
  assert (filter text_block (blocks_of text)
          = filter (fun b => b <> []) (blocks_of (space_to_sep text))) as Heq.
  { rewrite Hsep, HS', Hblocks. by apply filter_text_block_free. }
  assert (Forall (fun b => b = [SPACE] \/ SPACE ∉ b) (blocks_of text))
    as Hall.
  { rewrite Hblocks. constructor; [by right | exact Hbs]. }
  split; [exact Hall|]. split; [exact Heq|].
  exists (concat (map emit (blocks_of text))). split; [apply decode_eq|].
  rewrite decode_eq, filter_space_emit by exact Hall.
  by rewrite Heq, emit_nonempty_blocks.
Qed.

(** ** Quote stripping *)

(** C8, as the spec states it, fails: every leading and trailing quote is
    removed, not one layer. *)
Lemma strip_quotes_counterexample :
  str_strip QUOTES ([34; 34] ++ lit "x" ++ [34; 34]) = lit "x"
  /\ decode ([34; 34] ++ lit "x" ++ [34; 34]) = Ok (lit "x")
  /\ ~ trims_one_layer ([34; 34] ++ lit "x" ++ [34; 34]).
Proof.
  assert (str_strip QUOTES ([34; 34] ++ lit "x" ++ [34; 34]) = lit "x") as Hs
    by (vm_compute; reflexivity).
  split; [exact Hs|]. split; [vm_compute; reflexivity|].
  intros (pre & post & Heq & Hpre & Hpost). rewrite Hs in Heq.
  destruct pre as [|a [|a' pre]]; cbn in Heq, Hpre; [| |lia];
    discriminate Heq.
Qed.

(** C8 (amended): the first step of [decode] removes every leading and
    every trailing quote character, single or double: what it keeps
    neither begins nor ends with a quote, what it drops at either end are
    quotes only, and the rest of [decode] runs on the kept text, whose
    inner quotes stay in the blocks. *)
Theorem strip_quotes (text : str) :
  (exists pre post,
     text = pre ++ str_strip QUOTES text ++ post
     /\ Forall (fun c => c ∈ QUOTES) pre
     /\ Forall (fun c => c ∈ QUOTES) post)
  /\ (forall c, head (str_strip QUOTES text) = Some c -> c ∉ QUOTES)
  /\ (forall c, last (str_strip QUOTES text) = Some c -> c ∉ QUOTES)
  /\ blocks_of text
     = str_split SEP_CHAR
         (str_replace SPACE (SEPARATOR ++ [SPACE] ++ SEPARATOR)
            (str_strip QUOTES text))
  /\ decode text = decode (str_strip QUOTES text).
Proof.
  destruct (str_strip_split QUOTES text)
    as (pre & post & Heq & Hpre & Hpost & Hhd & Hlast).
  split; [by exists pre, post|]. split; [exact Hhd|]. split; [exact Hlast|].
  split; [reflexivity|].
  unfold decode. by rewrite str_strip_idemp.
Qed.

(** ** Table accesses *)

Lemma nth_lookup_lt (l : list str) (i : nat) :
  (i < length l)%nat -> l !! i = Some (nth i l []).
Proof.
  intros Hi. destruct (lookup_lt_is_Some_2 l i Hi) as [x Hx].
  by rewrite (nth_lookup_Some _ _ _ _ Hx).
Qed.

Lemma candidate_inv (v block : str) (ch : Z) :
  candidate v block = Some ch ->
  exists p q o n c,
    block = p ++ v ++ q
    /\ INITIAL_MAP !! p = Some o /\ MEDIAL_MAP !! v = Some n
    /\ FINAL_MAP !! q = Some c
    /\ ch = 44032 + (o * 588) + (n * 28) + c.
Proof.
  unfold candidate.
  destruct (find_first v block) as [[p q]|] eqn:Hff; [|congruence].
  destruct (INITIAL_MAP !! p) as [o|] eqn:Ho; [|congruence].
  destruct (MEDIAL_MAP !! v) as [n|] eqn:Hn; [|congruence].
  destruct (FINAL_MAP !! q) as [c|] eqn:Hc; [|congruence].
  intros [= <-]. apply find_first_sound in Hff as [Hb _].
  by exists p, q, o, n, c.
Qed.

(** C9: no table access of [encode] or [decode] is out of range.  For a
    character of the syllabic range, the three indices that the step of
    [encode] computes lie in 0..18, 0..20 and 0..27, the three list accesses
    return the tokens at these indices, and the step returns their
    concatenation.  The scan of [decode] returns on every block; when it
    matches, the three dict lookups have returned indices in 0..18, 0..20
    and 0..27, the recomposed code point lies in U+AC00..U+D7A3, [chr]
    returns it, and it is what the scan appends.  Any three successful
    lookups recompose to a code point of that range. *)
Theorem table_access_in_range (char : Z) (result : list str) (block : str) :
  is_hangul char = true ->
  (let code := ord char - 44032 in
   let onset := code `div` 588 in
   let nucleus := (code `mod` 588) `div` 28 in
   let coda := code `mod` 28 in
   (0 <= onset < 19 /\ 0 <= nucleus < 21 /\ 0 <= coda < 28)
   /\ exists i m f,
        INITIALS !! Z.to_nat onset = Some i
        /\ getitem INITIALS onset = Ok i
        /\ MEDIALS !! Z.to_nat nucleus = Some m
        /\ getitem MEDIALS nucleus = Ok m
        /\ FINALS !! Z.to_nat coda = Some f
        /\ getitem FINALS coda = Ok f
        /\ encode_step result char = Ok (result ++ [i ++ m ++ f]))
  /\ (exists result' matched,
        decode_scan _SORTED_MEDIALS block result = Ok (result', matched)
        /\ (matched = false -> result' = result)
        /\ (matched = true ->
            exists onset_str nucleus_str coda_str onset nucleus coda,
              block = onset_str ++ nucleus_str ++ coda_str
              /\ nucleus_str ∈ MEDIALS
              /\ dict_get INITIAL_MAP onset_str = Ok onset
              /\ dict_get MEDIAL_MAP nucleus_str = Ok nucleus
              /\ dict_get FINAL_MAP coda_str = Ok coda
              /\ 0 <= onset < 19 /\ 0 <= nucleus < 21 /\ 0 <= coda < 28
              /\ (let char_code :=
                    44032 + (onset * 588) + (nucleus * 28) + coda in
                  0xAC00 <= char_code <= 0xD7A3
                  /\ chr char_code = Ok char_code
                  /\ result' = result ++ [[char_code]])))
  /\ (forall onset_str nucleus_str coda_str onset nucleus coda,
        dict_get INITIAL_MAP onset_str = Ok onset ->
        dict_get MEDIAL_MAP nucleus_str = Ok nucleus ->
        dict_get FINAL_MAP coda_str = Ok coda ->
        let char_code := 44032 + (onset * 588) + (nucleus * 28) + coda in
        0xAC00 <= char_code <= 0xD7A3 /\ chr char_code = Ok char_code).
Proof.
  intros Hh. split; [|split].
  - pose proof Hh as Hr. apply is_hangul_spec in Hr.
    destruct (decompose_bounds char Hr) as (Hi & Hm & Hf).
    unfold ord. cbv zeta. split; [by repeat split; lia|].
    eexists _, _, _.
    split; [apply nth_lookup_lt; rewrite INITIALS_length; lia|].
    split; [apply getitem_Ok; rewrite INITIALS_length; lia|].
    split; [apply nth_lookup_lt; rewrite MEDIALS_length; lia|].
    split; [apply getitem_Ok; rewrite MEDIALS_length; lia|].
    split; [apply nth_lookup_lt; rewrite FINALS_length; lia|].
    split; [apply getitem_Ok; rewrite FINALS_length; lia|].
    rewrite encode_step_eq, encode_block_eq. cbn [bind].
    unfold block_of. rewrite Hh. reflexivity.
  - rewrite decode_scan_eq by apply SORTED_MEDIALS_vowels.
    destruct (first_accept _SORTED_MEDIALS block) as [ch|] eqn:Hfa.
    + exists (result ++ [[ch]]), true. split; [reflexivity|].
      split; [discriminate|]. intros _.
      apply first_accept_Some in Hfa as (before & v & after & Heq & _ & Hc).
      apply candidate_inv in Hc as (p & q & o & n & c & Hb & Ho & Hn & Hk & ->).
      exists p, v, q, o, n, c. split; [exact Hb|]. split.
      { rewrite <- SORTED_MEDIALS_perm, Heq, elem_of_app. right.
        apply list_elem_of_here. }
      unfold dict_get. rewrite Ho, Hn, Hk.
      apply INITIAL_MAP_bound in Ho. apply MEDIAL_MAP_bound in Hn.
      apply FINAL_MAP_bound in Hk.
      do 3 (split; [reflexivity|]). do 3 (split; [lia|]).
      cbv zeta. split; [lia|]. split; [apply chr_Ok; lia | reflexivity].
    + exists result, false. split; [reflexivity|].
      split; [reflexivity | discriminate].
  - intros onset_str nucleus_str coda_str onset nucleus coda Ho Hn Hc.
    unfold dict_get in Ho, Hn, Hc.
    destruct (INITIAL_MAP !! onset_str) as [o|] eqn:Eo; [|discriminate].
    destruct (MEDIAL_MAP !! nucleus_str) as [n|] eqn:En; [|discriminate].
    destruct (FINAL_MAP !! coda_str) as [c|] eqn:Ec; [|discriminate].
    injection Ho as ->. injection Hn as ->. injection Hc as ->.
    apply INITIAL_MAP_bound in Eo. apply MEDIAL_MAP_bound in En.
    apply FINAL_MAP_bound in Ec.
    cbv zeta. split; [lia|]. apply chr_Ok. lia.
Qed.

Lemma table_access_in_range_witness :
  is_hangul 0xD7A3 = true
  /\ encode_step [] 0xD7A3 = Ok [lit "hih"]
  /\ exists result' matched,
       decode_scan _SORTED_MEDIALS (lit "hih") [] = Ok (result', matched).
Proof.
  assert (is_hangul 0xD7A3 = true) as Hh by reflexivity.
  destruct (table_access_in_range 0xD7A3 [] (lit "hih") Hh)
    as [(_ & i & m & f & Hi & _ & Hm & _ & Hf & _ & Henc)
        [(result' & matched & Hdec & _) _]].
  split; [exact Hh|]. split; [|by exists result', matched].
  vm_compute in Hi, Hm, Hf.
  injection Hi as <-. injection Hm as <-. injection Hf as <-.
  exact Henc.
Defined.

(** ** The separator never reaches the output *)

Lemma emit_blocks_free (c : Z) (blocks : list str) :
  c < 0xAC00 ->
  Forall (fun b => c ∉ b) blocks -> c ∉ concat (map emit blocks).
Proof.
  intros Hc. induction 1 as [|b bs Hb _ IH]; [apply not_elem_of_nil|].
  cbn [map concat]. rewrite elem_of_app.
  intros [[Hin|Hge]%emit_chars|Hin]; [done | lia | done].
Qed.

(** C10: the string that [decode] returns holds no separator: every
    separator of the input ends a block, an emitted block is a
    separator-free piece of the split, and a recomposed syllable is not the
    separator. *)
Theorem decode_no_separator (text : str) :
  exists r, decode text = Ok r /\ SEP_CHAR ∉ r.
Proof.
  exists (concat (map emit (blocks_of text))). split; [apply decode_eq|].
  apply emit_blocks_free; [unfold SEP_CHAR; lia|].
  apply str_split_blocks_free.
Qed.

(** * Further properties of the module *)

(** ** The lookup tables *)

(** Each lookup table is the inverse of its token table: a token is a key
    exactly when it stands in the table, and its value is its index. *)
Theorem lookup_tables_inverse (k : str) (z : Z) :
  (INITIAL_MAP !! k = Some z <-> 0 <= z /\ INITIALS !! Z.to_nat z = Some k)
  /\ (MEDIAL_MAP !! k = Some z <-> 0 <= z /\ MEDIALS !! Z.to_nat z = Some k)
  /\ (FINAL_MAP !! k = Some z <-> 0 <= z /\ FINALS !! Z.to_nat z = Some k).
Proof.
  split; [apply INITIAL_MAP_lookup|].
  split; [apply MEDIAL_MAP_lookup | apply FINAL_MAP_lookup].
Qed.

(** ** The blocks of [encode] *)

Lemma tables_token_chars :
  Forall (Forall token_char) INITIALS
  /\ Forall (Forall token_char) MEDIALS
  /\ Forall (Forall token_char) FINALS.
Proof. unfold token_char. repeat split; by_eval. Qed.

Lemma tables_token_lengths :
  Forall (fun t => (length t <= 2)%nat) INITIALS
  /\ Forall (fun t => (1 <= length t <= 3)%nat) MEDIALS
  /\ Forall (fun t => (length t <= 3)%nat) FINALS.
Proof. repeat split; by_eval. Qed.

Lemma nth_Forall (P : str -> Prop) (l : list str) (i : nat) :
  (i < length l)%nat -> Forall P l -> P (nth i l []).
Proof.
  intros Hi Hl. destruct (lookup_lt_is_Some_2 l i Hi) as [x Hx].
  rewrite (nth_lookup_Some _ _ _ _ Hx).
  rewrite Forall_lookup in Hl. by eapply Hl.
Qed.

Lemma syllable_tokens (P Q R : str -> Prop) (char : Z) :
  0xAC00 <= char <= 0xD7A3 ->
  Forall P INITIALS -> Forall Q MEDIALS -> Forall R FINALS ->
  exists i m f, syllable char = i ++ m ++ f /\ P i /\ Q m /\ R f.
Proof.
  intros Hc HP HQ HR.
  destruct (decompose_bounds char Hc) as (Ho & Hn & Hk).
  eexists _, _, _. split; [reflexivity|]. repeat split.
  - apply nth_Forall; [rewrite INITIALS_length; lia | exact HP].
  - apply nth_Forall; [rewrite MEDIALS_length; lia | exact HQ].
  - apply nth_Forall; [rewrite FINALS_length; lia | exact HR].
Qed.

Lemma syllable_token_chars (char : Z) :
  0xAC00 <= char <= 0xD7A3 -> Forall token_char (syllable char).
Proof.
  intros Hc. destruct tables_token_chars as (HI & HM & HF).
  destruct (syllable_tokens _ _ _ char Hc HI HM HF)
    as (i & m & f & -> & Hi & Hm & Hf).
  rewrite !Forall_app. by repeat split.
Qed.

Lemma syllable_length (char : Z) :
  0xAC00 <= char <= 0xD7A3 -> (1 <= length (syllable char) <= 8)%nat.
Proof.
  intros Hc. destruct tables_token_lengths as (HI & HM & HF).
  destruct (syllable_tokens _ _ _ char Hc HI HM HF)
    as (i & m & f & -> & Hi & Hm & Hf).
  rewrite !length_app. lia.
Qed.

Lemma block_of_length (c : Z) : (1 <= length (block_of c) <= 8)%nat.
Proof.
  unfold block_of. destruct (is_hangul c) eqn:Hh.
  - by apply syllable_length, is_hangul_spec.
  - cbn. lia.
Qed.

Lemma block_of_sep_free (c : Z) : c <> SEP_CHAR -> SEP_CHAR ∉ block_of c.
Proof.
  intros Hc. unfold block_of. destruct (is_hangul c) eqn:Hh.
  - apply is_hangul_spec, syllable_token_chars in Hh.
    rewrite Forall_forall in Hh. intros Hin%Hh. unfold token_char in Hin.
    tauto.
  - apply not_elem_of_cons. split; [done | apply not_elem_of_nil].
Qed.

Lemma str_join_app (sep : str) (l1 l2 : list str) :
  l1 <> [] -> l2 <> [] ->
  str_join sep (l1 ++ l2) = str_join sep l1 ++ sep ++ str_join sep l2.
Proof.
  intros H1 H2. induction l1 as [|b l1 IH]; [done|].
  destruct l1 as [|b' l1].
  - cbn [app]. by rewrite str_join_cons.
  - change ((b :: b' :: l1) ++ l2) with (b :: ((b' :: l1) ++ l2)).
    rewrite !str_join_cons by done.
    rewrite IH by done. by rewrite <- !app_assoc.
Qed.

Lemma elem_of_str_join (sep : str) (bs : list str) (c : Z) :
  c ∈ str_join sep bs -> c ∈ sep \/ exists b, b ∈ bs /\ c ∈ b.
Proof.
  induction bs as [|b bs IH]; [by intros ?%elem_of_nil|].
  destruct bs as [|b' bs].
  - intros Hc. right. exists b. split; [apply list_elem_of_here | done].
  - rewrite str_join_cons by done. rewrite !elem_of_app.
    intros [Hc|[Hc|Hc]].
    + right. exists b. split; [apply list_elem_of_here | done].
    + by left.
    + destruct (IH Hc) as [Hs|(b0 & Hb0 & Hc0)]; [by left|].
      right. exists b0. split; [by apply list_elem_of_further | done].
Qed.

(** The output of [encode] splits back into one block per character of
    the input, provided the input is not empty and holds no separator. *)
Theorem encode_split_blocks (text : str) :
  text <> [] -> SEP_CHAR ∉ text ->
  exists y,
    encode text = Ok y
    /\ Forall2 (fun c b => spec_block c = Some b) text (str_split SEP_CHAR y).
Proof.
  intros Hne Hsep. exists (str_join SEPARATOR (map block_of text)).
  split; [apply encode_eq|].
  unfold SEPARATOR. rewrite str_split_join by (by destruct text).
  clear Hne. induction text as [|c text IH]; [constructor|].
  apply not_elem_of_cons in Hsep as [Hc Hsep].
  cbn [map concat]. rewrite str_split_free by (by apply block_of_sep_free).
  constructor; [apply spec_block_eq | by apply IH].
Qed.

Lemma encode_split_blocks_witness :
  [0xC548; 33] <> []
  /\ exists y,
       encode [0xC548; 33] = Ok y
       /\ Forall2 (fun c b => spec_block c = Some b) [0xC548; 33]
            (str_split SEP_CHAR y).
Proof.
  assert ([0xC548; 33] <> []) as H by discriminate.
  split; [exact H|]. apply (encode_split_blocks _ H). by_eval.
Defined.

(** Encoding a concatenation gives the two encodings with one separator
    between them. *)
Theorem encode_app (a b : str) :
  a <> [] -> b <> [] ->
  exists ya yb,
    encode a = Ok ya /\ encode b = Ok yb
    /\ encode (a ++ b) = Ok (ya ++ SEPARATOR ++ yb).
Proof.
  intros Ha Hb. eexists _, _.
  split; [apply encode_eq|]. split; [apply encode_eq|].
  rewrite encode_eq. f_equal. rewrite map_app.
  apply str_join_app; by destruct a, b.
Qed.

Lemma encode_app_witness :
  [0xC548] <> [] /\ [0xB098; 33] <> []
  /\ encode ([0xC548] ++ [0xB098; 33])
     = Ok (lit "an" ++ SEPARATOR ++ lit "na\!").
Proof.
  assert ([0xC548] <> []) as Ha by discriminate.
  assert ([0xB098; 33] <> []) as Hb by discriminate.
  split; [exact Ha|]. split; [exact Hb|].
  destruct (encode_app _ _ Ha Hb) as (ya & yb & Hya & Hyb & ->).
  vm_compute in Hya, Hyb. injection Hya as <-. injection Hyb as <-.
  reflexivity.
Defined.

Lemma str_join_length_bounds (bs : list str) :
  bs <> [] ->
  Forall (fun b => (1 <= length b <= 8)%nat) bs ->
  (2 * length bs - 1 <= length (str_join SEPARATOR bs) <= 9 * length bs - 1)%nat.
Proof.
  intros Hne Hbs. induction Hbs as [|b bs Hb Hbs IH]; [done|].
  destruct bs as [|b' bs].
  - cbn. lia.
  - rewrite str_join_cons by done. specialize (IH ltac:(done)).
    rewrite !length_app. change (length SEPARATOR) with 1%nat.
    cbn [length] in *. lia.
Qed.

(** The length of the output of [encode]: every character gives a block of
    one to eight characters, and the blocks are one separator apart. *)
Theorem encode_length (text : str) :
  text <> [] ->
  exists y,
    encode text = Ok y
    /\ (2 * length text - 1 <= length y <= 9 * length text - 1)%nat.
Proof.
  intros Hne. exists (str_join SEPARATOR (map block_of text)).
  split; [apply encode_eq|].
  rewrite <- (length_map block_of text).
  apply str_join_length_bounds; [by destruct text|].
  apply Forall_forall. intros b (c & -> & _)%(list_elem_of_fmap block_of).
  apply block_of_length.
Qed.

Lemma encode_length_witness :
  [0xCDCD; 0xAC00] <> []
  /\ exists y,
       encode [0xCDCD; 0xAC00] = Ok y
       /\ (2 * length ([0xCDCD; 0xAC00]%Z) - 1 <= length y
           <= 9 * length ([0xCDCD; 0xAC00]%Z) - 1)%nat.
Proof.
  assert ([0xCDCD; 0xAC00] <> []) as H by discriminate.
  split; [exact H | exact (encode_length _ H)].
Defined.

Lemma encode_chars (text : str) (c : Z) :
  c ∈ str_join SEPARATOR (map block_of text) ->
  c = SEP_CHAR
  \/ (exists c0, c0 ∈ text /\ 0xAC00 <= c0 <= 0xD7A3 /\ token_char c)
  \/ (c ∈ text /\ ~ 0xAC00 <= c <= 0xD7A3).
Proof.
  intros [Hc|(b & Hb & Hc)]%elem_of_str_join.
  - left. by apply list_elem_of_singleton in Hc.
  - right. apply (list_elem_of_fmap block_of) in Hb as (c0 & -> & Hc0).
    unfold block_of in Hc. destruct (is_hangul c0) eqn:Hh.
    + left. exists c0. apply is_hangul_spec in Hh.
      pose proof (syllable_token_chars c0 Hh) as Hall.
      rewrite Forall_forall in Hall.
      split; [exact Hc0|]. split; [exact Hh|]. by apply Hall.
    + right. apply list_elem_of_singleton in Hc as ->. split; [done|].
      intros Hr%is_hangul_spec. congruence.
Qed.

(** The output of [encode] holds no syllable of the range U+AC00..U+D7A3,
    whatever the input. *)
Theorem encode_no_syllable (text : str) :
  exists y,
    encode text = Ok y /\ Forall (fun c => ~ 0xAC00 <= c <= 0xD7A3) y.
Proof.
  exists (str_join SEPARATOR (map block_of text)).
  split; [apply encode_eq|]. apply Forall_forall.
  intros c [->|[(c0 & _ & _ & Hc)|[_ Hc]]]%encode_chars.
  - unfold SEP_CHAR. lia.
  - destruct Hc as [Hc _]. lia.
  - exact Hc.
Qed.

(** On a text of syllables the output of [encode] is made of the separator
    and of Latin-1 characters that are neither a space nor a quote. *)
Theorem encode_syllables_latin1 (x : str) :
  Forall (fun c => 0xAC00 <= c <= 0xD7A3) x ->
  exists y,
    encode x = Ok y
    /\ Forall (fun c => c = SEP_CHAR
                        \/ (0 < c < 256 /\ c <> SPACE /\ c ∉ QUOTES)) y.
Proof.
  intros Hx. exists (str_join SEPARATOR (map block_of x)).
  split; [apply encode_eq|]. apply Forall_forall.
  intros c [->|[(c0 & _ & _ & Hc)|[Hin Hc]]]%encode_chars.
  - by left.
  - right. unfold token_char in Hc. tauto.
  - rewrite Forall_forall in Hx. by apply Hx in Hin.
Qed.

Lemma encode_syllables_latin1_witness :
  Forall (fun c => 0xAC00 <= c <= 0xD7A3) [0xC548; 0xB155]
  /\ exists y,
       encode [0xC548; 0xB155] = Ok y
       /\ Forall (fun c => c = SEP_CHAR
                           \/ (0 < c < 256 /\ c <> SPACE /\ c ∉ QUOTES)) y.
Proof.
  assert (Forall (fun c => 0xAC00 <= c <= 0xD7A3) [0xC548; 0xB155]) as H
    by (repeat constructor; lia).
  split; [exact H | exact (encode_syllables_latin1 _ H)].
Defined.

(** ** [encode] is one to one *)

Lemma roundtrip_safe_decode (s : str) :
  roundtrip_safe s ->
  decode (str_join SEPARATOR (map block_of s)) = Ok s.
Proof.
  intros [Hs [Hhd Hlast]]. apply roundtrip; [|done|done].
  eapply Forall_impl; [exact Hs|].
  intros c [Hc|[Hsep Hv]]; [by left|right].
  split; [done|]. intros Hin. by apply Hv, short_vowel.
Qed.

(** Two texts that a round trip gives back and that have the same encoding
    are the same text. *)
Theorem encode_injective (s t : str) :
  roundtrip_safe s -> roundtrip_safe t -> encode s = encode t -> s = t.
Proof.
  intros Hs Ht Heq. rewrite !encode_eq in Heq. injection Heq as Heq.
  apply roundtrip_safe_decode in Hs, Ht. rewrite Heq in Hs.
  rewrite Hs in Ht. by injection Ht.
Qed.

Lemma syllables_roundtrip_safe (x : str) :
  Forall (fun c => 0xAC00 <= c <= 0xD7A3) x -> roundtrip_safe x.
Proof.
  intros Hx. split; [|split].
  - eapply Forall_impl; [exact Hx|]. intros c Hc. by left.
  - destruct x as [|c x]; [done|]. intros ? [= <-].
    inversion Hx as [|?? Hc _]; subst. apply not_quote; lia.
  - intros c Hc%last_Some_elem_of.
    rewrite Forall_forall in Hx. apply Hx in Hc. apply not_quote; lia.
Qed.

Lemma encode_injective_witness :
  roundtrip_safe [0xC548; 0xB155]
  /\ encode [0xC548; 0xB155] = encode [0xC548; 0xB155]
  /\ [0xC548; 0xB155] = [0xC548; 0xB155].
Proof.
  assert (roundtrip_safe [0xC548; 0xB155]) as H
    by (apply syllables_roundtrip_safe; repeat constructor; lia).
  split; [exact H|]. split; [reflexivity|].
  exact (encode_injective _ _ H H eq_refl).
Defined.

(** ** Quotes around the input of [decode] *)

Section StripWrapped.
  Variable chars : str.

Lemma str_lstrip_all (pre s : str) :
  Forall (fun c => c ∈ chars) pre ->
  str_lstrip chars (pre ++ s) = str_lstrip chars s.
Proof.
  induction 1 as [|c pre Hc _ IH]; [reflexivity|].
  cbn [app str_lstrip]. apply char_in_spec in Hc. by rewrite Hc.
Qed.

Lemma str_lstrip_app (t u : str) :
  str_lstrip chars (t ++ u)
  = match str_lstrip chars t with
    | [] => str_lstrip chars u
    | _ :: _ => str_lstrip chars t ++ u
    end.
Proof.
  induction t as [|c t IH]; [reflexivity|].
  cbn [app str_lstrip]. by destruct (char_in c chars).
Qed.

Lemma str_rstrip_all (s post : str) :
  Forall (fun c => c ∈ chars) post ->
  str_rstrip chars (s ++ post) = str_rstrip chars s.
Proof.
  intros Hpost. unfold str_rstrip. rewrite reverse_app.
  by rewrite str_lstrip_all by by apply Forall_reverse.
Qed.

Lemma str_strip_wrapped (pre t post : str) :
  Forall (fun c => c ∈ chars) pre ->
  Forall (fun c => c ∈ chars) post ->
  str_strip chars (pre ++ t ++ post) = str_strip chars t.
Proof.
  intros Hpre Hpost. unfold str_strip.
  rewrite str_lstrip_all by done. rewrite str_lstrip_app.
  destruct (str_lstrip chars t) as [|c l] eqn:Ht.
  - rewrite <- (app_nil_r post), str_lstrip_all by done. reflexivity.
  - by apply str_rstrip_all.
Qed.

End StripWrapped.

Lemma decode_strip (text : str) :
  decode text = decode (str_strip QUOTES text).
Proof. unfold decode. by rewrite str_strip_idemp. Qed.

(** [decode] does not see the quotes around its input: any run of single
    and double quotes before and after a text leaves its decoding as it
    is. *)
Theorem decode_ignores_quotes (pre text post : str) :
  Forall (fun c => c ∈ QUOTES) pre ->
  Forall (fun c => c ∈ QUOTES) post ->
  decode (pre ++ text ++ post) = decode text.
Proof.
  intros Hpre Hpost.
  rewrite (decode_strip (pre ++ text ++ post)), (decode_strip text).
  by rewrite str_strip_wrapped.
Qed.

Lemma decode_ignores_quotes_witness :
  Forall (fun c => c ∈ QUOTES) [39; 34]
  /\ decode ([39; 34] ++ lit "ga\na" ++ [34]) = decode (lit "ga\na").
Proof.
  assert (Forall (fun c => c ∈ QUOTES) [39; 34]) as H1
    by (repeat constructor; by_eval).
  assert (Forall (fun c => c ∈ QUOTES) [34]) as H2
    by (repeat constructor; by_eval).
  split; [exact H1 | exact (decode_ignores_quotes _ _ _ H1 H2)].
Defined.

(** ** Where the characters of the output of [decode] come from *)

Lemma elem_of_str_split (sep : Z) (s b : str) (c : Z) :
  b ∈ str_split sep s -> c ∈ b -> c ∈ s.
Proof.
  revert b. induction s as [|c0 s IH]; intros b; cbn [str_split].
  - intros ->%list_elem_of_singleton. by intros ?%elem_of_nil.
  - destruct (c0 =? sep).
    + intros [->|Hb]%elem_of_cons Hc; [by apply elem_of_nil in Hc|].
      apply list_elem_of_further. by eapply IH.
    + destruct (str_split sep s) as [|b0 bs].
      * intros ->%list_elem_of_singleton ->%list_elem_of_singleton.
        apply list_elem_of_here.
      * intros [->|Hb]%elem_of_cons Hc.
        -- apply elem_of_cons in Hc as [->|Hc]; [apply list_elem_of_here|].
           apply list_elem_of_further.
           apply (IH b0); [apply list_elem_of_here | done].
        -- apply list_elem_of_further. apply (IH b); [|done].
           by apply list_elem_of_further.
Qed.

Lemma elem_of_str_replace (s : str) (c : Z) :
  c ∈ str_replace SPACE SOFT s -> c ∈ s \/ c = SEP_CHAR.
Proof.
  induction s as [|c0 s IH]; [by left|]. cbn [str_replace].
  rewrite elem_of_app. intros [Hc|Hc].
  - destruct (Z.eqb_spec c0 SPACE) as [->|_].
    + change SOFT with [SEP_CHAR; SPACE; SEP_CHAR] in Hc.
      rewrite !elem_of_cons in Hc.
      destruct Hc as [->|[->|[->|Hc]]];
        [by right | left; apply list_elem_of_here | by right
        | by apply elem_of_nil in Hc].
    + apply list_elem_of_singleton in Hc as ->. left. apply list_elem_of_here.
  - destruct (IH Hc) as [Hin|Heq]; [left; by apply list_elem_of_further | by right].
Qed.

Lemma elem_of_str_strip (chars s : str) (c : Z) :
  c ∈ str_strip chars s -> c ∈ s.
Proof.
  destruct (str_strip_split chars s) as (pre & post & Heq & _).
  intros Hc. rewrite Heq, !elem_of_app. right. by left.
Qed.

Lemma blocks_of_chars (text b : str) (c : Z) :
  b ∈ blocks_of text -> c ∈ b -> c ∈ text.
Proof.
  unfold blocks_of. fold SOFT. intros Hb Hc.
  pose proof (str_split_blocks_free SEP_CHAR
                (str_replace SPACE SOFT (str_strip QUOTES text))) as Hfree.
  rewrite Forall_forall in Hfree. specialize (Hfree b Hb).
  pose proof (elem_of_str_split _ _ _ _ Hb Hc) as Hin.
  apply elem_of_str_replace in Hin as [Hin|Heq]; [|by subst].
  by eapply elem_of_str_strip.
Qed.

Lemma recompose_le (v block : str) (o n c : nat) :
  valid_partition v block o n c -> recompose o n c <= 0xD7A3.
Proof.
  intros (p & q & _ & Ho%lookup_lt_Some & Hn%lookup_lt_Some
                   & Hc%lookup_lt_Some).
  rewrite INITIALS_length in Ho. rewrite MEDIALS_length in Hn.
  rewrite FINALS_length in Hc. unfold recompose. lia.
Qed.

Lemma emit_range (block : str) (c : Z) :
  c ∈ emit block -> c ∈ block \/ 0xAC00 <= c <= 0xD7A3.
Proof.
  unfold emit. destruct block as [|x block]; [by left|].
  destruct (first_accept _SORTED_MEDIALS (x :: block)) as [ch|] eqn:Hfa;
    [|by left].
  intros ->%list_elem_of_singleton. right.
  apply first_accept_Some in Hfa as (_ & v & _ & _ & _ & Hc).
  apply candidate_spec in Hc as (o & n & k & Hv & ->).
  split; [apply recompose_ge | by eapply recompose_le].
Qed.

Lemma elem_of_concat_emit (blocks : list str) (c : Z) :
  c ∈ concat (map emit blocks) -> exists b, b ∈ blocks /\ c ∈ emit b.
Proof.
  induction blocks as [|b bs IH]; [by intros ?%elem_of_nil|].
  cbn [map concat]. rewrite elem_of_app. intros [Hc|Hc].
  - exists b. split; [apply list_elem_of_here | done].
  - destruct (IH Hc) as (b0 & Hb0 & Hc0).
    exists b0. split; [by apply list_elem_of_further | done].
Qed.

(** Every character of the output of [decode] is a character of the input
    or a syllable of the range U+AC00..U+D7A3: nothing else is made up. *)
Theorem decode_chars (text : str) :
  exists r,
    decode text = Ok r
    /\ Forall (fun c => c ∈ text \/ 0xAC00 <= c <= 0xD7A3) r.
Proof.
  exists (concat (map emit (blocks_of text))). split; [apply decode_eq|].
  apply Forall_forall. intros c (b & Hb & Hc)%elem_of_concat_emit.
  apply emit_range in Hc as [Hc|Hc]; [left|by right].
  by eapply blocks_of_chars.
Qed.

(** ** The length of the output of [decode] *)

Lemma concat_str_split (sep : Z) (s : str) :
  concat (str_split sep s) = filter (fun c => c <> sep) s.
Proof.
  induction s as [|c s IH]; [reflexivity|].
  cbn [str_split]. rewrite filter_cons.
  destruct (Z.eqb_spec c sep) as [->|Hc].
  - destruct (decide (sep <> sep)); [done | exact IH].
  - destruct (decide (c <> sep)); [|done]. rewrite <- IH.
    pose proof (str_split_nonempty sep s).
    by destruct (str_split sep s).
Qed.

Lemma filter_str_replace (s : str) :
  filter (fun c => c <> SEP_CHAR) (str_replace SPACE SOFT s)
  = filter (fun c => c <> SEP_CHAR) s.
Proof.
  induction s as [|c s IH]; [reflexivity|].
  cbn [str_replace]. rewrite filter_app, IH.
  destruct (Z.eqb_spec c SPACE) as [->|_].
  - replace (filter (fun c => c <> SEP_CHAR) SOFT) with [SPACE]
      by (vm_compute; reflexivity).
    rewrite (filter_cons _ SPACE).
    destruct (decide (SPACE <> SEP_CHAR)) as [_|Hn]; [reflexivity|].
    destruct Hn. unfold SPACE, SEP_CHAR. lia.
  - change (c :: s) with ([c] ++ s). by rewrite filter_app.
Qed.

Lemma concat_blocks_of (text : str) :
  concat (blocks_of text)
  = filter (fun c => c <> SEP_CHAR) (str_strip QUOTES text).
Proof.
  unfold blocks_of. fold SOFT.
  by rewrite concat_str_split, filter_str_replace.
Qed.

Lemma emit_length (block : str) : (length (emit block) <= length block)%nat.
Proof.
  unfold emit. destruct block as [|x block]; [done|].
  destruct (first_accept _SORTED_MEDIALS (x :: block)); cbn [length]; lia.
Qed.

Lemma str_strip_length (chars s : str) :
  (length (str_strip chars s) <= length s)%nat.
Proof.
  destruct (str_strip_split chars s) as (pre & post & Heq & _).
  rewrite Heq at 2. rewrite !length_app. lia.
Qed.

(** [decode] never returns more characters than it is given. *)
Theorem decode_length (text : str) :
  exists r, decode text = Ok r /\ (length r <= length text)%nat.
Proof.
  exists (concat (map emit (blocks_of text))). split; [apply decode_eq|].
  transitivity (length (concat (blocks_of text))).
  - induction (blocks_of text) as [|b bs IH]; [done|].
    cbn [map concat]. rewrite !length_app.
    pose proof (emit_length b). lia.
  - rewrite concat_blocks_of.
    etransitivity; [apply length_filter | apply str_strip_length].
Qed.

(** ** Text without vowel letters *)

Lemma MEDIALS_vowel_letters :
  Forall (Exists (fun c => c ∈ VOWEL_LETTERS)) MEDIALS.
Proof. by_eval. Qed.

Lemma accepted_vowel_letter (v block : str) :
  accepted v block -> exists c, c ∈ VOWEL_LETTERS /\ c ∈ block.
Proof.
  intros (o & n & k & p & q & [-> _] & _ & Hn & _).
  pose proof MEDIALS_vowel_letters as Hall.
  rewrite Forall_lookup in Hall. apply Hall in Hn.
  apply Exists_exists in Hn as (c & Hc & Hv).
  exists c. split; [done|]. rewrite !elem_of_app. right. by left.
Qed.

Lemma emit_no_vowel_letter (block : str) :
  Forall (fun c => c ∉ VOWEL_LETTERS) block -> emit block = block.
Proof.
  intros Hb. unfold emit. destruct block as [|x block]; [reflexivity|].
  rewrite first_accept_rejects; [reflexivity|].
  apply Forall_forall. intros v _ (c & Hv & Hc)%accepted_vowel_letter.
  rewrite Forall_forall in Hb. by apply (Hb c).
Qed.

(** A text in which none of the letters a, e, i, o, u and their four
    accented forms occurs is returned by [decode] with the quotes at its
    ends stripped and its separators deleted, and is changed in no other
    way; so is, for one, a text of syllables. *)
Theorem decode_plain_text (text : str) :
  Forall (fun c => c ∉ VOWEL_LETTERS) text ->
  decode text
  = Ok (filter (fun c => c <> SEP_CHAR) (str_strip QUOTES text)).
Proof.
  intros Ht. rewrite decode_eq, <- concat_blocks_of. f_equal.
  assert (Forall (fun b => emit b = b) (blocks_of text)) as Hall.
  { apply Forall_forall. intros b Hb. apply emit_no_vowel_letter.
    apply Forall_forall. intros c Hc.
    rewrite Forall_forall in Ht. apply Ht. by eapply blocks_of_chars. }
  induction Hall as [|b bs Hb _ IH]; [reflexivity|].
  cbn [map concat]. by rewrite Hb, IH.
Qed.

Lemma decode_plain_text_witness :
  Forall (fun c => c ∉ VOWEL_LETTERS) ([34; 0xAC00] ++ lit "\x 1" ++ [34])
  /\ decode ([34; 0xAC00] ++ lit "\x 1" ++ [34])
     = Ok ([0xAC00] ++ lit "x 1").
Proof.
  assert (Forall (fun c => c ∉ VOWEL_LETTERS)
            ([34; 0xAC00] ++ lit "\x 1" ++ [34])) as H
    by (repeat (constructor; [by_eval|]); constructor).
  split; [exact H|]. rewrite (decode_plain_text _ H).
  vm_compute. reflexivity.
Defined.

(** ** [decode] block by block *)

Lemma decode_unquoted (t : str) :
  unquoted t ->
  decode t
  = Ok (concat (map emit (str_split SEP_CHAR (str_replace SPACE SOFT t)))).
Proof.
  intros [Hhd Hlast]. rewrite decode_eq. unfold blocks_of. fold SOFT.
  by rewrite str_strip_id.
Qed.

Lemma unquoted_app (a b : str) (c : Z) :
  c ∉ QUOTES -> unquoted a -> unquoted b -> unquoted (a ++ c :: b).
Proof.
  intros Hc [Ha _] [_ Hb]. split.
  - destruct a as [|x a]; [by intros ? [= <-] | exact Ha].
  - intros x. rewrite last_app, last_cons.
    destruct (last b) as [y|] eqn:Hl; [|by intros [= <-]].
    intros [= <-]. by apply Hb.
Qed.

Lemma emit_split_app (s1 s2 : str) :
  concat (map emit (str_split SEP_CHAR (s1 ++ SEP_CHAR :: s2)))
  = concat (map emit (str_split SEP_CHAR s1))
    ++ concat (map emit (str_split SEP_CHAR s2)).
Proof. by rewrite str_split_app, map_app, concat_app. Qed.

(** The decoding of two texts joined by a separator is the decoding of the
    first followed by the decoding of the second, when no quote stands at
    an end of either: the blocks are decoded one by one. *)
Theorem decode_app_separator (a b : str) :
  unquoted a -> unquoted b ->
  exists ra rb,
    decode a = Ok ra /\ decode b = Ok rb
    /\ decode (a ++ SEPARATOR ++ b) = Ok (ra ++ rb).
Proof.
  intros Ha Hb. eexists _, _.
  split; [by apply decode_unquoted|]. split; [by apply decode_unquoted|].
  change (a ++ SEPARATOR ++ b) with (a ++ SEP_CHAR :: b).
  rewrite decode_unquoted by (by apply unquoted_app; [apply not_quote|..]).
  f_equal. rewrite str_replace_app.
  change (str_replace SPACE SOFT (SEP_CHAR :: b))
    with (SEP_CHAR :: str_replace SPACE SOFT b).
  apply emit_split_app.
Qed.

Lemma unquoted_sample (s : String.string) :
  match lit s with
  | [] => True
  | c :: _ => c ∉ QUOTES
  end ->
  match last (lit s) with
  | None => True
  | Some c => c ∉ QUOTES
  end ->
  unquoted (lit s).
Proof.
  intros Hh Hl. split.
  - destruct (lit s) as [|c t]; [done|]. by intros ? [= <-].
  - intros c Hc. by rewrite Hc in Hl.
Qed.

Lemma decode_app_separator_witness :
  unquoted (lit "ga") /\ unquoted (lit "x")
  /\ decode (lit "ga" ++ SEPARATOR ++ lit "x") = Ok ([0xAC00] ++ lit "x").
Proof.
  assert (unquoted (lit "ga")) as Ha by (apply unquoted_sample; by_eval).
  assert (unquoted (lit "x")) as Hb by (apply unquoted_sample; by_eval).
  split; [exact Ha|]. split; [exact Hb|].
  destruct (decode_app_separator _ _ Ha Hb) as (ra & rb & Hra & Hrb & ->).
  vm_compute in Hra, Hrb. injection Hra as <-. injection Hrb as <-.
  reflexivity.
Defined.

(** The decoding of two texts joined by a space is the decoding of the
    first, the space, and the decoding of the second, when no quote stands
    at an end of either. *)
Theorem decode_app_space (a b : str) :
  unquoted a -> unquoted b ->
  exists ra rb,
    decode a = Ok ra /\ decode b = Ok rb
    /\ decode (a ++ [SPACE] ++ b) = Ok (ra ++ [SPACE] ++ rb).
Proof.
  intros Ha Hb. eexists _, _.
  split; [by apply decode_unquoted|]. split; [by apply decode_unquoted|].
  change (a ++ [SPACE] ++ b) with (a ++ SPACE :: b).
  rewrite decode_unquoted by (by apply unquoted_app; [apply not_quote|..]).
  f_equal. rewrite str_replace_app.
  change (str_replace SPACE SOFT (SPACE :: b))
    with (SEP_CHAR :: ([SPACE] ++ SEP_CHAR :: str_replace SPACE SOFT b)).
  rewrite !emit_split_app.
  change (concat (map emit (str_split SEP_CHAR [SPACE])))
    with (emit [SPACE] ++ []).
  rewrite emit_singleton by apply SPACE_not_vowel. reflexivity.
Qed.

Lemma decode_app_space_witness :
  unquoted (lit "ga") /\ unquoted (lit "x")
  /\ decode (lit "ga" ++ [SPACE] ++ lit "x")
     = Ok ([0xAC00] ++ [SPACE] ++ lit "x").
Proof.
  assert (unquoted (lit "ga")) as Ha by (apply unquoted_sample; by_eval).
  assert (unquoted (lit "x")) as Hb by (apply unquoted_sample; by_eval).
  split; [exact Ha|]. split; [exact Hb|].
  destruct (decode_app_space _ _ Ha Hb) as (ra & rb & Hra & Hrb & ->).
  vm_compute in Hra, Hrb. injection Hra as <-. injection Hrb as <-.
  reflexivity.
Defined.

(** ** The one-letter vowels *)

(** A text made of one of the eight one-character nucleus tokens does not
    come back from a round trip: its block is the block of the syllable
    with no onset and no coda, and [decode] returns that syllable. *)
Theorem decode_encode_short_vowel (c : Z) :
  c ∈ SHORT_VOWELS ->
  exists n,
    MEDIALS !! n = Some [c]
    /\ decode_encode [c] = Ok [recompose 11 n 0]
    /\ decode_encode [c] <> Ok [c].
Proof.
  unfold SHORT_VOWELS. change (lit "auoi") with [97; 117; 111; 105].
  cbn [app]. rewrite !elem_of_cons. intros H.
  repeat (destruct H as [->|H];
          [eexists; split; [by_lookup_vowel|];
           split; [vm_compute; reflexivity|];
           intros Heq; vm_compute in Heq; discriminate Heq|]).
  by apply elem_of_nil in H.
Qed.

Lemma decode_encode_short_vowel_witness :
  105 ∈ SHORT_VOWELS
  /\ exists n,
       MEDIALS !! n = Some [105]
       /\ decode_encode [105] = Ok [recompose 11 n 0]
       /\ decode_encode [105] <> Ok [105].
Proof.
  assert (105 ∈ SHORT_VOWELS) as H by by_eval.
  split; [exact H | exact (decode_encode_short_vowel _ H)].
Defined.

(** ** Spaces are kept as blocks of their own *)

Lemma str_join_cons_head (sep : str) (c : Z) (b : str) (bs : list str) :
  str_join sep ((c :: b) :: bs) = c :: str_join sep (b :: bs).
Proof. by destruct bs. Qed.

(** Joining the pieces of a split gives the text back. *)
Lemma str_join_split (sep : Z) (s : str) :
  str_join [sep] (str_split sep s) = s.
Proof.
  induction s as [|c s IH]; [reflexivity|]. cbn [str_split].
  pose proof (str_split_nonempty sep s) as Hne.
  destruct (Z.eqb_spec c sep) as [->|_].
  - rewrite str_join_cons by done. by rewrite IH.
  - destruct (str_split sep s) as [|b bs]; [done|].
    by rewrite str_join_cons_head, IH.
Qed.

Lemma between_cons {A} (sep l : list A) (ls : list (list A)) :
  ls <> [] -> between sep (l :: ls) = l ++ sep ++ between sep ls.
Proof. by destruct ls. Qed.

Lemma str_replace_join_space (pieces : list str) :
  Forall (fun p => SPACE ∉ p) pieces ->
  str_replace SPACE SOFT (str_join [SPACE] pieces) = str_join SOFT pieces.
Proof.
  induction 1 as [|p ps Hp Hps IH]; [reflexivity|].
  destruct ps as [|p' ps].
  - by apply str_replace_free.
  - rewrite !str_join_cons by done.
    rewrite str_replace_app, str_replace_free by done.
    change (str_replace SPACE SOFT ([SPACE] ++ str_join [SPACE] (p' :: ps)))
      with (SOFT ++ str_replace SPACE SOFT (str_join [SPACE] (p' :: ps))).
    by rewrite IH.
Qed.

Lemma str_split_join_soft (pieces : list str) :
  pieces <> [] ->
  str_split SEP_CHAR (str_join SOFT pieces)
  = between [[SPACE]] (map (str_split SEP_CHAR) pieces).
Proof.
  induction pieces as [|p ps IH]; [done|]. intros _.
  destruct ps as [|p' ps]; [reflexivity|].
  rewrite str_join_cons by done.
  change (map (str_split SEP_CHAR) (p :: p' :: ps))
    with (str_split SEP_CHAR p :: map (str_split SEP_CHAR) (p' :: ps)).
  rewrite between_cons by done.
  change (p ++ SOFT ++ str_join SOFT (p' :: ps))
    with (p ++ SEP_CHAR :: ([SPACE] ++ SEP_CHAR :: str_join SOFT (p' :: ps))).
  rewrite !str_split_app, IH by done. reflexivity.
Qed.

Lemma space_to_sep_free (p : str) : SPACE ∉ p -> space_to_sep p = p.
Proof.
  induction p as [|c p IH]; [reflexivity|].
  intros [Hc Hp]%not_elem_of_cons. cbn [space_to_sep map].
  fold (space_to_sep p). rewrite IH by done.
  by destruct (Z.eqb_spec c SPACE).
Qed.

Lemma space_to_sep_app (a b : str) :
  space_to_sep (a ++ b) = space_to_sep a ++ space_to_sep b.
Proof. apply map_app. Qed.

Lemma space_to_sep_join (pieces : list str) :
  Forall (fun p => SPACE ∉ p) pieces ->
  space_to_sep (str_join [SPACE] pieces) = str_join SEPARATOR pieces.
Proof.
  induction 1 as [|p ps Hp Hps IH]; [reflexivity|].
  destruct ps as [|p' ps].
  - by apply space_to_sep_free.
  - rewrite !str_join_cons by done.
    rewrite !space_to_sep_app, IH, space_to_sep_free by done. reflexivity.
Qed.

(** The output for the blocks of a piece of text that holds no space. *)
Lemma emit_between_space (pieces : list str) :
  pieces <> [] ->
  concat (map emit (between [[SPACE]] (map (str_split SEP_CHAR) pieces)))
  = str_join [SPACE]
      (map (fun p => concat (map emit (str_split SEP_CHAR p))) pieces).
Proof.
  induction pieces as [|p ps IH]; [done|]. intros _.
  destruct ps as [|p' ps]; [reflexivity|].
  change (map (str_split SEP_CHAR) (p :: p' :: ps))
    with (str_split SEP_CHAR p :: map (str_split SEP_CHAR) (p' :: ps)).
  rewrite between_cons by done.
  rewrite !map_app, !concat_app, IH by done.
  change (concat (map emit [[SPACE]])) with (emit [SPACE] ++ []).
  rewrite emit_singleton by apply SPACE_not_vowel. reflexivity.
Qed.

Lemma emit_concat_pieces (pieces : list str) :
  concat (map emit (concat (map (str_split SEP_CHAR) pieces)))
  = concat (map (fun p => concat (map emit (str_split SEP_CHAR p))) pieces).
Proof.
  induction pieces as [|p ps IH]; [reflexivity|].
  cbn [map concat]. by rewrite map_app, concat_app, IH.
Qed.

Lemma emit_piece_free (c : Z) (p : str) :
  c < 0xAC00 -> c ∉ p ->
  c ∉ concat (map emit (str_split SEP_CHAR p)).
Proof.
  intros Hc Hp (b & Hb & Hin)%elem_of_concat_emit.
  apply emit_chars in Hin as [Hin|Hge]; [|lia].
  apply Hp. by eapply elem_of_str_split.
Qed.

(** A piece between two separators is decoded as it stands. *)
Lemma decode_between_separators (p : str) :
  SPACE ∉ p ->
  decode (SEPARATOR ++ p ++ SEPARATOR)
  = Ok (concat (map emit (str_split SEP_CHAR p))).
Proof.
  intros Hp. rewrite decode_eq. f_equal. unfold blocks_of. fold SOFT.
  rewrite str_strip_id.
  - rewrite str_replace_free.
    + change (SEPARATOR ++ p ++ SEPARATOR)
        with (SEP_CHAR :: (p ++ SEP_CHAR :: [])).
      rewrite str_split_cons_sep, str_split_app.
      change (str_split SEP_CHAR []) with [@nil Z].
      cbn [map concat]. rewrite map_app, concat_app.
      change (emit []) with (@nil Z). cbn [map concat app].
      by rewrite !app_nil_r.
    + rewrite !elem_of_app. unfold SEPARATOR.
      rewrite !list_elem_of_singleton. unfold SPACE, SEP_CHAR in *.
      intros [H|[H|H]]; [lia | done | lia].
  - intros c [= <-]. apply not_quote; unfold SEP_CHAR; lia.
  - rewrite app_assoc. unfold SEPARATOR at 2. rewrite last_snoc.
    intros c [= <-]. apply not_quote; unfold SEP_CHAR; lia.
Qed.

(** The maximal runs without a space of the text that [decode] keeps. *)
Lemma space_pieces (t : str) :
  exists pieces,
    pieces <> [] /\ t = str_join [SPACE] pieces
    /\ Forall (fun p => SPACE ∉ p) pieces.
Proof.
  exists (str_split SPACE t). split; [apply str_split_nonempty|].
  split; [by rewrite str_join_split | apply str_split_blocks_free].
Qed.

(** C7 (amended): during [decode] a space ends a block, as the separator
    does, and is itself kept as a one-space block that is emitted
    unchanged.  With the text that [decode] keeps cut at its spaces into
    pieces, the blocks are the blocks of the pieces with a one-space block
    at each cut, where the input in which every space is replaced by the
    separator has just the blocks of the pieces; and the result is the
    results of the pieces with a space at each cut, where that of the
    separator-only input is the results of the pieces with nothing between
    them.  So every block is the one-space block or holds no space, the
    other non-empty blocks are the non-empty blocks of the separator-only
    input, and the result of the separator-only input is the result with
    its spaces deleted. *)
Theorem space_delimiter (text : str) :
  (exists pieces results,
     str_strip QUOTES text = str_join [SPACE] pieces
     /\ Forall (fun p => SPACE ∉ p) pieces
     /\ blocks_of text
        = between [[SPACE]] (map (str_split SEP_CHAR) pieces)
     /\ blocks_of (space_to_sep text)
        = concat (map (str_split SEP_CHAR) pieces)
     /\ Forall2 (fun p r => decode (SEPARATOR ++ p ++ SEPARATOR) = Ok r)
          pieces results
     /\ Forall (fun r => SPACE ∉ r) results
     /\ decode text = Ok (str_join [SPACE] results)
     /\ decode (space_to_sep text) = Ok (concat results))
  /\ Forall (fun b => b = [SPACE] \/ SPACE ∉ b) (blocks_of text)
  /\ filter text_block (blocks_of text)
     = filter (fun b => b <> []) (blocks_of (space_to_sep text))
  /\ exists r,
       decode text = Ok r
       /\ decode (space_to_sep text) = Ok (filter (fun c => c <> SPACE) r).
Proof.
  split; [|apply space_blocks_filtered].
  destruct (space_pieces (str_strip QUOTES text)) as (pieces & Hne & Ht & Hfree).
  assert (blocks_of text
          = between [[SPACE]] (map (str_split SEP_CHAR) pieces)) as Hb.
  { unfold blocks_of. fold SOFT.
    by rewrite Ht, str_replace_join_space, str_split_join_soft. }
  assert (blocks_of (space_to_sep text)
          = concat (map (str_split SEP_CHAR) pieces)) as Hb'.
  { unfold blocks_of. fold SOFT.
    rewrite str_strip_space_to_sep, str_replace_space_to_sep, Ht.
    rewrite space_to_sep_join by done. unfold SEPARATOR.
    by apply str_split_join. }
  exists pieces,
    (map (fun p => concat (map emit (str_split SEP_CHAR p))) pieces).
  split; [exact Ht|]. split; [exact Hfree|].
  split; [exact Hb|]. split; [exact Hb'|]. split; [|split; [|split]].
  - clear Ht Hb Hb' Hne.
    induction Hfree as [|p ps Hp _ IH]; constructor; [|exact IH].
    by apply decode_between_separators.
  - apply Forall_forall.
    intros r (p & -> & Hp)%(list_elem_of_fmap
      (fun p => concat (map emit (str_split SEP_CHAR p)))).
    rewrite Forall_forall in Hfree.
    apply emit_piece_free; [unfold SPACE; lia | by apply Hfree].
  - by rewrite decode_eq, Hb, emit_between_space.
  - by rewrite decode_eq, Hb', emit_concat_pieces.
Qed.
